(** * NEMESIS cipher (Nemesis.pyx): a shallow embedding and its properties

    The development follows the Cython source function by function:
    the two lookup tables, [as_bytes], [necessary_length],
    [generate_keystreams], the byte loop of [nemesis_encrypt] and the
    command loop of [main].

    Conventions of the embedding.
    - Python integers are [Z]; a Python [bytearray] or list of small integers
      is a [list Z]; a Python string is the list of its code points.
    - An operation that raises (IndexError, ZeroDivisionError,
      UnicodeEncodeError), or whose C behaviour is undefined (a read outside
      a C array, a remainder by zero), returns [None].
    - [nemesis_encrypt] is compiled with [cdivision(True)]: there [%], [//]
      and [/] on C integers are C's truncating [Z.rem] and [Z.quot].
      [generate_keystreams] has no such directive: its [%] is Python's
      flooring [Z.modulo].
    - The buffer is viewed through [char[:]].  Whether plain [char] is signed
      is fixed by the C target, so the embedding takes it as a parameter.
    - C [int] and [long long] quantities are [Z]: the embedding is exact as
      long as they stay in range.  The one quantity that grows with the
      keys is the accumulator [aux] of the matrix builder: there the
      embedding checks the range of [int] at every assignment
      (OverflowError, or an undefined C addition, is [None]).  The proofs
      use the builder without these checks as an auxiliary and show that
      both agree for keys of at most 129 characters. *)

From Stdlib Require Import ZArith List Lia Bool Morphisms Setoid.
From Stdlib Require Import Floats.SpecFloat.
Import ListNotations.
Open Scope Z_scope.

(** ** Python and C primitives *)

Module Py.

Definition bind {A B : Type} (m : option A) (f : A -> option B) : option B :=
  match m with
  | Some a => f a
  | None => None
  end.

(** [len(x)] *)
Definition len {A : Type} (l : list A) : Z := Z.of_nat (length l).

(** [l[i]] on a Python sequence: a negative index counts from the end,
    an index outside [-len, len) raises IndexError. *)
Definition getitem {A : Type} (l : list A) (i : Z) : option A :=
  let i' := if i <? 0 then i + len l else i in
  if i' <? 0 then None else nth_error l (Z.to_nat i').

(** [a % b] on Python integers: the flooring remainder, ZeroDivisionError
    for a zero divisor. *)
Definition mod_ (a b : Z) : option Z :=
  if b =? 0 then None else Some (a mod b).

(** [range(start, stop)] and [range(n)] *)
Definition range2 (start stop : Z) : list Z :=
  map (fun n => start + Z.of_nat n) (seq 0 (Z.to_nat (stop - start))).

Definition range (n : Z) : list Z := range2 0 n.

(** [range(start, stop, step)] for a positive step, by at most [fuel]
    elements; the tables below use it with enough fuel. *)
Fixpoint range_step (fuel : nat) (start stop step : Z) : list Z :=
  match fuel with
  | O => []
  | S fuel' =>
      if start <? stop
      then start :: range_step fuel' (start + step) stop step
      else []
  end.

(** [for k in ks: s = body(s, k)], stopping at the first exception. *)
Fixpoint for_each {S : Type} (ks : list Z) (body : S -> Z -> option S)
  (s : S) : option S :=
  match ks with
  | [] => Some s
  | k :: ks' =>
      match body s k with
      | Some s' => for_each ks' body s'
      | None => None
      end
  end.

(** [int(ceil(L / 2))] with true division: [L / 2] is exact in binary64
    for every C int, so the ceiling is the integer ceiling. *)
Definition ceil_half (L : Z) : Z := (L + 1) / 2.

End Py.

Notation "x <- m ;; k" := (Py.bind m (fun x => k))
  (at level 61, m at next level, right associativity).

Module C.

(** [t[i]] on a C array or an unchecked buffer of [length t] cells; outside
    it the read is undefined. *)
Definition index (t : list Z) (i : Z) : option Z :=
  if i <? 0 then None else nth_error t (Z.to_nat i).

(** [t[i] = v] on an unchecked buffer. *)
Fixpoint set_nth (n : nat) (v : Z) (t : list Z) : option (list Z) :=
  match t, n with
  | [], _ => None
  | _ :: t', O => Some (v :: t')
  | x :: t', S n' =>
      match set_nth n' v t' with
      | Some r => Some (x :: r)
      | None => None
      end
  end.

Definition store (t : list Z) (i v : Z) : option (list Z) :=
  if i <? 0 then None else set_nth (Z.to_nat i) v t.

(** [a % b] on C integers under [cdivision(True)]. *)
Definition rem (a b : Z) : option Z :=
  if b =? 0 then None else Some (Z.rem a b).

(** A Python integer assigned to a C [int]: OverflowError outside
    -2^31 .. 2^31 - 1. *)
Definition int_of_py (z : Z) : option Z :=
  if (-2147483648 <=? z) && (z <=? 2147483647) then Some z else None.

(** [a + b] on C [int]s: undefined when the sum leaves the range. *)
Definition int_add (a b : Z) : option Z := int_of_py (a + b).

(** Signedness of plain [char], which C leaves to the target: signed on
    the x86 and x86-64 ABIs, unsigned on the ARM and PowerPC ones. *)
Inductive char_kind := SignedChar | UnsignedChar.

(** Value of the buffer byte [b] (0..255) read through a [char] lvalue. *)
Definition char_read (ck : char_kind) (b : Z) : Z :=
  match ck with
  | UnsignedChar => b
  | SignedChar => if b <? 128 then b else b - 256
  end.

(** Byte left in the buffer by the assignment of the int [v] to a [char]:
    the low eight bits. *)
Definition char_store (v : Z) : Z := v mod 256.

End C.

(** ** The tables [_ODD] and [_INVERSE] *)

Definition _ODD : list Z := Py.range_step 128 1 256 2.

Definition _INVERSE : list Z :=
  [1; 171; 205; 183; 57; 163; 197; 239; 241; 27; 61; 167; 41; 19;
   53; 223; 225; 139; 173; 151; 25; 131; 165; 207; 209; 251; 29;
   135; 9; 243; 21; 191; 193; 107; 141; 119; 249; 99; 133; 175;
   177; 219; 253; 103; 233; 211; 245; 159; 161; 75; 109; 87; 217;
   67; 101; 143; 145; 187; 221; 71; 201; 179; 213; 127; 129; 43;
   77; 55; 185; 35; 69; 111; 113; 155; 189; 39; 169; 147; 181; 95;
   97; 11; 45; 23; 153; 3; 37; 79; 81; 123; 157; 7; 137; 115; 149;
   63; 65; 235; 13; 247; 121; 227; 5; 47; 49; 91; 125; 231; 105;
   83; 117; 31; 33; 203; 237; 215; 89; 195; 229; 15; 17; 59; 93;
   199; 73; 51; 85; 255].

(** ** [as_bytes]: [bytearray(x, encoding='UTF-8')] *)

(** UTF-8 bytes of one code point; a surrogate or a value outside Unicode
    cannot be encoded. *)
Definition utf8_encode (c : Z) : option (list Z) :=
  if c <? 0 then None
  else if c <? 128 then Some [c]
  else if c <? 2048 then Some [192 + c / 64; 128 + c mod 64]
  else if (55296 <=? c) && (c <=? 57343) then None
  else if c <? 65536 then
    Some [224 + c / 4096; 128 + (c / 64) mod 64; 128 + c mod 64]
  else if c <? 1114112 then
    Some [240 + c / 262144; 128 + (c / 4096) mod 64;
          128 + (c / 64) mod 64; 128 + c mod 64]
  else None.

Fixpoint as_bytes (x : list Z) : option (list Z) :=
  match x with
  | [] => Some []
  | c :: x' =>
      b <- utf8_encode c ;;
      bs <- as_bytes x' ;;
      Some (b ++ bs)
  end.

(** A passphrase over the 7-bit alphabet the program documents. *)
Definition is_ascii (x : list Z) : bool :=
  forallb (fun c => (0 <=? c) && (c <? 128)) x.

(** ** [necessary_length] *)

Module Double.

(** IEEE-754 binary64, round to nearest even, as C's [double]. *)
Definition prec : Z := 53.
Definition emax : Z := 1024.

(** The literal [2.65]: the binary64 value nearest to 265/100. *)
Definition lit_2_65 : spec_float := S754_finite false 5967269506265907 (-51).

(** Conversion of a C integer to [double]. *)
Definition of_int (z : Z) : spec_float := binary_normalize prec emax z 0 false.

Definition mul (x y : spec_float) : spec_float := SFmul prec emax x y.

Definition ltb (x y : spec_float) : bool := SFltb x y.

End Double.

(** The [while] loop of [necessary_length]; [None] when [fuel] iterations
    did not reach its exit. *)
Fixpoint necessary_length_loop (fuel : nat) (k : Z)
  (approx_growth_rate size : spec_float) : option Z :=
  match fuel with
  | O => None
  | S fuel' =>
      if Double.ltb approx_growth_rate size
      then necessary_length_loop fuel' (k + 1)
             (Double.mul approx_growth_rate Double.lit_2_65) size
      else Some k
  end.

Definition necessary_length_fuel : nat := 1024.

Definition necessary_length (size : Z) : option Z :=
  necessary_length_loop necessary_length_fuel 2 Double.lit_2_65
    (Double.of_int size).

(** The test of the prompt loops: [len(key) >= minlen] with
    [minlen = necessary_length(size)]. *)
Definition key_accepted (size : Z) (key : list Z) : bool :=
  match necessary_length size with
  | Some minlen => minlen <=? Py.len key
  | None => false
  end.

(** The value of [approx_growth_rate] after [n] more passes of the loop. *)
Fixpoint growth_after (n : nat) (g : spec_float) : spec_float :=
  match n with
  | O => g
  | S n' => growth_after n' (Double.mul g Double.lit_2_65)
  end.

(** ** [generate_keystreams] *)

Definition matrix := list (list Z).

(** [m[r][c]] on a Python list of sequences. *)
Definition getitem2 (m : matrix) (r c : Z) : option Z :=
  row <- Py.getitem m r ;;
  Py.getitem row c.

(** One pass of [for k in range(L2)] while keystream1 is built:
    [aux += keystream2[0][k] * keystream2[0][(k + j) % L2]
            * keystream1[0][(aux + k) % L1]];
    [own] is the matrix being built and [other] the other key's.  [aux] and
    [k] are C [int]s: [aux + k] is a C addition; the entries and their
    product are Python integers, and the sum assigned back to [aux] must
    fit an [int]. *)
Definition mix_step (own other : matrix) (L L' j : Z) (aux k : Z)
  : option Z :=
  x <- getitem2 other 0 k ;;
  kj <- Py.mod_ (k + j) L' ;;
  y <- getitem2 other 0 kj ;;
  s <- C.int_add aux k ;;
  ak <- Py.mod_ s L ;;
  z <- getitem2 own 0 ak ;;
  C.int_of_py (aux + x * y * z).

(** The value appended for index [j] of row [i]:
    [aux = keystream1[-2][j] * keystream1[-2][L1-i]],
    [aux += keystream1[-2][j+1] * keystream1[-2][min(0, j-1)]] and the [k]
    loop give the accumulator; [aux % 256] is appended. *)
Definition row_accumulator (own other : matrix) (L L' i j : Z) : option Z :=
  a1 <- getitem2 own (-2) j ;;
  a2 <- getitem2 own (-2) (L - i) ;;
  aux <- C.int_of_py (a1 * a2) ;;
  b1 <- getitem2 own (-2) (j + 1) ;;
  b2 <- getitem2 own (-2) (Z.min 0 (j - 1)) ;;
  aux <- C.int_of_py (aux + b1 * b2) ;;
  Py.for_each (Py.range L') (mix_step own other L L' j) aux.

Definition row_element (own other : matrix) (L L' i j : Z) : option Z :=
  aux <- row_accumulator own other L L' i j ;;
  Some (aux mod 256).

(** [j = 0; while (j < L - i): ...; j += 1]: the loop runs [L - i] times
    ([n] counts the passes left), appending one element per pass to the
    row under construction. *)
Fixpoint row_loop (n : nat) (own other : matrix) (L L' i j : Z)
  (row : list Z) : option (list Z) :=
  match n with
  | O => Some row
  | S n' =>
      e <- row_element own other L L' i j ;;
      row_loop n' own other L L' i (j + 1) (row ++ [e])
  end.

(** One pass of [for i in range(1, 1 + stop)]: [keystream.append([])], the
    [j] loop reading [keystream[-2]] and both rows 0, and the finished row
    put in the last place. *)
Definition add_row (other : matrix) (L L' : Z) (keystream : matrix) (i : Z)
  : option matrix :=
  let appended := keystream ++ [[]] in
  row <- row_loop (Z.to_nat (L - i)) appended other L L' i 0 [] ;;
  Some (keystream ++ [row]).

Definition build_keystream (other : matrix) (L L' stop : Z)
  (keystream : matrix) : option matrix :=
  Py.for_each (Py.range2 1 (1 + stop)) (add_row other L L') keystream.

Definition generate_keystreams (key1 key2 : list Z)
  : option (matrix * matrix) :=
  let L1 := Py.len key1 in
  let L2 := Py.len key2 in
  let stop1 := Py.ceil_half L1 in
  let stop2 := Py.ceil_half L2 in
  k1 <- as_bytes key1 ;;
  k2 <- as_bytes key2 ;;
  let keystream1 := [k1] in
  let keystream2 := [k2] in
  keystream1 <- build_keystream keystream2 L1 L2 stop1 keystream1 ;;
  keystream2 <- build_keystream keystream1 L2 L1 stop2 keystream2 ;;
  Some (keystream1, keystream2).

(** *** The row recurrence in the words of the specification *)

(** [l[n]] in the mathematical sense: defined for 0 <= n < len only. *)
Definition at_index (l : list Z) (n : Z) : option Z :=
  if n <? 0 then None else nth_error l (Z.to_nat n).

(** [acc = acc + K'[k] * K'[(k+j) mod L'] * K[(acc+k) mod L]] *)
Definition spec_update (K K' : list Z) (L L' j : Z) (acc k : Z)
  : option Z :=
  x <- at_index K' k ;;
  y <- at_index K' ((k + j) mod L') ;;
  z <- at_index K ((acc + k) mod L) ;;
  Some (acc + x * y * z).

(** Element [j] of row [i] from the row above: [a = prevRow[j] *
    prevRow[L-i]], [b = prevRow[j+1] * prevRow[p]], [acc = a + b], the
    updates for k = 0..L'-1 in order, then [acc mod 256]. *)
Definition spec_element (K K' prevRow : list Z) (L L' i j p : Z)
  : option Z :=
  a1 <- at_index prevRow j ;;
  a2 <- at_index prevRow (L - i) ;;
  b1 <- at_index prevRow (j + 1) ;;
  b2 <- at_index prevRow p ;;
  acc <- Py.for_each (Py.range L') (spec_update K K' L L' j)
           (a1 * a2 + b1 * b2) ;;
  Some (acc mod 256).


(** The index [p] the code reads: the last index of [prevRow] for j = 0. *)
Definition p_last (L : Z) (prevRow : list Z) (j : Z) : Z :=
  if j =? 0 then Py.len prevRow - 1 else 0.


(** *** The shape of a keystream matrix *)

Definition is_byte (x : Z) : Prop := 0 <= x < 256.

(** Row 0 is [K]; [ceil(L/2)] rows follow, row i of length [L - i]; every
    entry is a byte. *)
Definition keystream_shape (K : list Z) (L : Z) (m : matrix) : Prop :=
  Py.len m = 1 + Py.ceil_half L /\
  Py.getitem m 0 = Some K /\
  (forall i, 1 <= i <= Py.ceil_half L ->
     exists row, Py.getitem m i = Some row /\ Py.len row = L - i) /\
  Forall (Forall is_byte) m.


(** Largest value of a C [int]. *)
Definition INT_MAX : Z := 2147483647.

(** ** The RK+ transform of one byte (lines 265-271 of [nemesis_encrypt]) *)

Module RK.

(** [RK = ((byte1 + byte2)%256)//2] *)
Definition rk_index (byte1 byte2 : Z) : Z :=
  Z.quot (Z.rem (byte1 + byte2) 256) 2.

(** [RK = (((_ODD[RK] * data_view[index]) + byte1 - byte2)
          * _ODD[127-RK]) % 256]: the int that is then assigned to
    [data_view[index]].  [d] is the byte in the buffer. *)
Definition encrypt_int (ck : C.char_kind) (d byte1 byte2 : Z) : option Z :=
  let RK := rk_index byte1 byte2 in
  o1 <- C.index _ODD RK ;;
  o2 <- C.index _ODD (127 - RK) ;;
  Some (Z.rem ((o1 * C.char_read ck d + byte1 - byte2) * o2) 256).

(** The byte that [data_view[index] = RK] leaves in the buffer. *)
Definition encrypt_byte (ck : C.char_kind) (d byte1 byte2 : Z) : option Z :=
  v <- encrypt_int ck d byte1 byte2 ;;
  Some (C.char_store v).

(** The encryption formula in the words of the specification:
    [ciphertext = ((ODD[RK] * p + byte1 - byte2) mod 256) * ODD[127 - RK]
    mod 256] with [RK = ((byte1 + byte2) mod 256) div 2]. *)
Definition spec_encrypt (p byte1 byte2 : Z) : option Z :=
  let RK := ((byte1 + byte2) mod 256) / 2 in
  o1 <- C.index _ODD RK ;;
  o2 <- C.index _ODD (127 - RK) ;;
  Some ((((o1 * p + byte1 - byte2) mod 256) * o2) mod 256).

(** Modelled from the spec: the inverse transform.  [nemesis_decrypt] in
    the source is an empty stub ([pass]); the specification (section 4.4)
    gives the transform it requires:
    [temp = (c * INV[127 - RK]) mod 256],
    [plaintext = ((temp - byte1 + byte2) mod 256) * INV[RK] mod 256],
    negatives normalised, over the source's [_INVERSE] table. *)
Definition spec_decrypt (c byte1 byte2 : Z) : option Z :=
  let RK := ((byte1 + byte2) mod 256) / 2 in
  i2 <- C.index _INVERSE (127 - RK) ;;
  i1 <- C.index _INVERSE RK ;;
  let temp := (c * i2) mod 256 in
  Some ((((temp - byte1 + byte2) mod 256) * i1) mod 256).

End RK.

(** ** The byte loop of [nemesis_encrypt] *)

(** [stop = int(ceil(L / 2))] as [nemesis_encrypt] computes it.  The
    function is compiled with [cdivision(True)] and [L] is a C [int], so
    [L / 2] is C's division, which truncates: [ceil] receives an integer
    and [stop] is [L / 2] rounded towards zero.  ([generate_keystreams]
    has no such directive; there the same expression is [Py.ceil_half].) *)
Definition stop_of (L : Z) : Z := Z.quot L 2.

(** [for i in range(stop): byte += keystream[i][count % (L - i)]] followed
    by [byte %= 256]. *)
Definition mix_row (keystream : matrix) (L count : Z) (byte i : Z)
  : option Z :=
  idx <- C.rem count (L - i) ;;
  v <- getitem2 keystream i idx ;;
  Some (byte + v).

Definition mixing_byte (keystream : matrix) (L stop count : Z) : option Z :=
  byte <- Py.for_each (Py.range stop) (mix_row keystream L count) 0 ;;
  Some (Z.rem byte 256).

(** The mixing byte in the words of the specification: the sum for
    i = 0..stop-1 of [row[i][t mod (L - i)]], mod 256, with
    [stop = ceil(L/2)]. *)
Definition spec_term (m : matrix) (L t i : Z) : Z :=
  nth (Z.to_nat (t mod (L - i))) (nth (Z.to_nat i) m []) 0.

Definition sum (l : list Z) : Z := fold_right Z.add 0 l.

Definition spec_mixing_byte (m : matrix) (L t : Z) : Z :=
  sum (map (spec_term m L t) (Py.range (Py.ceil_half L))) mod 256.

(** The same sum over the rows 0..stop-1, for any [stop]. *)
Definition mixing_sum (m : matrix) (L stop t : Z) : Z :=
  sum (map (spec_term m L t) (Py.range stop)) mod 256.

(** The mixer on matrix [m] at position [t], run up to [stop], computes
    that sum, every index it uses lies inside its row, and it reads rows
    0..stop-1 only: a matrix that differs from [m] in other rows gives the
    same byte. *)
Definition mixer_formula (m : matrix) (L stop t : Z) : Prop :=
  mixing_byte m L stop t = Some (mixing_sum m L stop t) /\
  (forall i, 0 <= i < stop ->
     exists row, Py.getitem m i = Some row /\
                 0 <= t mod (L - i) < Py.len row) /\
  (forall m',
     (forall i, 0 <= i < stop -> Py.getitem m' i = Py.getitem m i) ->
     mixing_byte m' L stop t = mixing_byte m L stop t).

(** The file opened ['r+b']: its bytes and the position of the next read
    or write. *)
Record file := { content : list Z; pos : Z }.

(** [datafile.read(n)] *)
Definition read (n : Z) (f : file) : list Z * file :=
  let got := firstn (Z.to_nat n) (skipn (Z.to_nat (pos f)) (content f)) in
  (got, {| content := content f; pos := pos f + Py.len got |}).

(** [datafile.seek(p)] *)
Definition seek (p : Z) (f : file) : file :=
  {| content := content f; pos := p |}.

(** [datafile.write(data)]: overwrite from the position on (the program
    never seeks beyond the end of the file). *)
Definition write (data : list Z) (f : file) : file :=
  let before := firstn (Z.to_nat (pos f)) (content f) in
  let after := skipn (Z.to_nat (pos f) + length data) (content f) in
  {| content := before ++ data ++ after; pos := pos f + Py.len data |}.

(** The variables the loop updates. *)
Record loop_state := {
  data : list Z;
  count : Z;
  checksum : Z;
  datafile : file
}.

Section ByteLoop.

(** [chunk] is 1048576 in the source; [ck] the target's [char]. *)
Variable chunk : Z.
Variable ck : C.char_kind.
Variables keystream1 keystream2 : matrix.
Variables L1 L2 stop1 stop2 : Z.

(** Body of [while (count < size)]. *)
Definition encrypt_step (st : loop_state) : option loop_state :=
  byte1 <- mixing_byte keystream1 L1 stop1 (count st) ;;
  byte2 <- mixing_byte keystream2 L2 stop2 (count st) ;;
  index <- C.rem (count st) chunk ;;
  d <- C.index (data st) index ;;
  RK <- RK.encrypt_int ck d byte1 byte2 ;;
  data' <- C.store (data st) index (C.char_store RK) ;;
  written <- C.index data' index ;;
  let checksum' := checksum st + C.char_read ck written in
  let count' := count st + 1 in
  full <- C.rem count' chunk ;;
  if full =? 0 then
    let position := count' - chunk in
    let f := write data' (seek position (datafile st)) in
    let '(next, f') := read chunk f in
    Some {| data := next; count := count'; checksum := checksum';
            datafile := f' |}
  else
    Some {| data := data'; count := count'; checksum := checksum';
            datafile := datafile st |}.

(** [while (count < size)]; [None] also when [fuel] passes did not reach
    the exit. *)
Fixpoint encrypt_loop (fuel : nat) (size : Z) (st : loop_state)
  : option loop_state :=
  match fuel with
  | O => None
  | S fuel' =>
      if count st <? size then
        st' <- encrypt_step st ;;
        encrypt_loop fuel' size st'
      else Some st
  end.

End ByteLoop.

(** [(checksum % 233, checksum % 239, checksum % 241, checksum % 251)] on
    the [long long] checksum. *)
Definition mac (checksum : Z) : Z * Z * Z * Z :=
  (Z.rem checksum 233, Z.rem checksum 239,
   Z.rem checksum 241, Z.rem checksum 251).

(** [nemesis_encrypt] from the accepted keys on: the matrices, the first
    [read], the byte loop.  The result is the state in which the loop
    ends: the file, the buffer of the last chunk, the checksum. *)
Definition final_state (chunk : Z) (ck : C.char_kind)
  (key1 key2 : list Z) (bytes : list Z) : option loop_state :=
  let size := Py.len bytes in
  ks <- generate_keystreams key1 key2 ;;
  let '(keystream1, keystream2) := ks in
  r1 <- Py.getitem keystream1 0 ;;
  r2 <- Py.getitem keystream2 0 ;;
  let L1 := Py.len r1 in
  let L2 := Py.len r2 in
  let stop1 := stop_of L1 in
  let stop2 := stop_of L2 in
  let '(first, f) := read chunk {| content := bytes; pos := 0 |} in
  encrypt_loop chunk ck keystream1 keystream2 L1 L2 stop1 stop2
    (S (Z.to_nat size)) size
    {| data := first; count := 0; checksum := 0; datafile := f |}.

(** What a run leaves behind: the bytes of the file and the MAC printed. *)
Definition nemesis_encrypt_chunked (chunk : Z) (ck : C.char_kind)
  (key1 key2 : list Z) (bytes : list Z)
  : option (list Z * (Z * Z * Z * Z)) :=
  st <- final_state chunk ck key1 key2 bytes ;;
  Some (content (datafile st), mac (checksum st)).

Definition CHUNK : Z := 1048576.

Definition nemesis_encrypt : C.char_kind -> list Z -> list Z -> list Z ->
  option (list Z * (Z * Z * Z * Z)) :=
  nemesis_encrypt_chunked CHUNK.

(** [nemesis_decrypt] is [pass]: it leaves the file as it is. *)
Definition nemesis_decrypt (bytes : list Z) : list Z := bytes.

(** The byte that the loop leaves at position [t] of the buffer when it
    finds [d] there: mixing bytes of the position, then the RK+ transform. *)
Definition transform (ck : C.char_kind) (keystream1 keystream2 : matrix)
  (L1 L2 stop1 stop2 : Z) (t d : Z) : option Z :=
  byte1 <- mixing_byte keystream1 L1 stop1 t ;;
  byte2 <- mixing_byte keystream2 L2 stop2 t ;;
  RK.encrypt_byte ck d byte1 byte2.

(** The same with the keys as arguments and L, stop taken from row 0 as
    [nemesis_encrypt] takes them; 0 stands for "no byte". *)
Definition cipher_at (ck : C.char_kind) (key1 key2 : list Z) (t d : Z) : Z :=
  match generate_keystreams key1 key2 with
  | Some (keystream1, keystream2) =>
      match Py.getitem keystream1 0, Py.getitem keystream2 0 with
      | Some r1, Some r2 =>
          match transform ck keystream1 keystream2
                  (Py.len r1) (Py.len r2)
                  (stop_of (Py.len r1)) (stop_of (Py.len r2))
                  t d with
          | Some c => c
          | None => 0
          end
      | _, _ => 0
      end
  | None => 0
  end.

(** The bytes [l], found at positions [t], [t+1], ..., transformed by [f]. *)
Fixpoint map_from (f : Z -> Z -> Z) (t : Z) (l : list Z) : list Z :=
  match l with
  | [] => []
  | d :: l' => f t d :: map_from f (t + 1) l'
  end.

(** The whole ciphertext of [bytes]. *)
Definition ciphertext (ck : C.char_kind) (key1 key2 : list Z)
  (bytes : list Z) : list Z :=
  map_from (cipher_at ck key1 key2) 0 bytes.

(** The bytes of the file that lie in whole chunks. *)
Definition whole_chunks (chunk : Z) (bytes : list Z) : Z :=
  chunk * (Py.len bytes / chunk).

(** Every table lookup that the transform of one byte makes with mixing
    bytes [byte1], [byte2] is inside the 128 cells of its table. *)
Definition lookups_in_bounds (byte1 byte2 : Z) : Prop :=
  let RK := RK.rk_index byte1 byte2 in
  0 <= RK <= 127 /\ 0 <= 127 - RK <= 127 /\
  C.index _ODD RK <> None /\ C.index _ODD (127 - RK) <> None /\
  C.index _INVERSE RK <> None /\ C.index _INVERSE (127 - RK) <> None /\
  forall ck d, RK.encrypt_int ck d byte1 byte2 <> None.

(** ** Notions for further properties of the module *)

(** Product of the lengths of the rows the mixer reads:
    [L * (L - 1) * ... * (L - stop + 1)]. *)
Definition period (L stop : Z) : Z :=
  fold_right Z.mul 1 (map (fun i => L - i) (Py.range stop)).

(** [minlen = necessary_length(size)] with [size] a [long long] and the
    parameter an [int]: the C conversion, which the compilers that build
    the module define as reduction modulo 2^32 into the range of [int]. *)
Definition to_int (z : Z) : Z :=
  (z + 2147483648) mod 4294967296 - 2147483648.

Definition minlen (size : Z) : option Z := necessary_length (to_int size).

(** The integer parts of the values that [approx_growth_rate] takes, pass
    after pass: of 2.65, 2.65^2, ..., 2.65^23 as the doubles compute
    them. *)
Definition growth_floors : list Z :=
  [2; 7; 18; 49; 130; 346; 917; 2432; 6444; 17078; 45258; 119936;
   317831; 842252; 2231968; 5914717; 15674000; 41536101; 110070668;
   291687271; 772971270; 2048373867; 5428190748].

(** The number of leading entries of [floors] below [size]. *)
Fixpoint passes (floors : list Z) (size : Z) : nat :=
  match floors with
  | T :: floors' => if T <? size then S (passes floors' size) else O
  | [] => O
  end.

(** [g] is a positive binary64 number in normal form with a 53-bit
    mantissa, not below 1, and [T] is its integer part. *)
Definition canonical_floor (g : spec_float) (T : Z) : bool :=
  match g with
  | S754_finite false m e =>
      (Z.pos (digits2_pos m) =? 53) && (-52 <=? e) && (e <=? 0) &&
      (Z.pos m / 2 ^ (- e) =? T)
  | _ => false
  end.

(** ** [main]: the command loop *)

(** A Python string, as the list of its code points. *)
Definition str : Type := list Z.

(** [a == b] on strings. *)
Fixpoint str_eqb (a b : str) : bool :=
  match a, b with
  | [], [] => true
  | c :: a', d :: b' => (c =? d) && str_eqb a' b'
  | _, _ => false
  end.

(** [s in x] for a list [x] of strings. *)
Definition in_list (s : str) (x : list str) : bool := existsb (str_eqb s) x.

(** [x.split(' -')]: the pieces of [x] between the occurrences of a space
    followed by a hyphen (code points 32, 45), read from the left; [cur] is
    the piece collected so far. *)
Fixpoint split_from (x : str) (cur : str) : list str :=
  match x with
  | [] => [cur]
  | c :: tl =>
      match tl with
      | d :: rest =>
          if (c =? 32) && (d =? 45)
          then cur :: split_from rest []
          else split_from tl (cur ++ [c])
      | [] => [cur ++ [c]]
      end
  end.

Definition split (x : str) : list str := split_from x [].

(** The literals ['quit'], ['-quit'], ['encrypt'] and ['decrypt']. *)
Definition quit : str := [113; 117; 105; 116].
Definition dash_quit : str := 45 :: quit.
Definition encrypt : str := [101; 110; 99; 114; 121; 112; 116].
Definition decrypt : str := [100; 101; 99; 114; 121; 112; 116].

(** The exceptions that leave [main]; [OpenError] is any exception of
    [open] other than FileNotFoundError and PermissionError. *)
Inductive exn := SystemExit (code : Z) | UnboundLocalError | OpenError
               | EOFError.

(** What [open(filename, 'r')] does. *)
Inductive open_result := Opened | FileNotFound | PermissionDenied
                       | OtherError.

(** A call made through [usage_modes]. *)
Inductive call := Encrypt (filename : str) | Decrypt (filename : str).

(** The locals [filename] and [mode], which live from one pass of
    [while True] to the next; [None] before the first assignment. *)
Record locals := { filename : option str; mode : option str }.

(** [usage_modes.get(mode, lambda x: None)]: [None] stands for the
    default, which does nothing. *)
Definition usage_modes (m : str) : option (str -> call) :=
  if str_eqb m encrypt then Some Encrypt
  else if str_eqb m decrypt then Some Decrypt
  else None.

(** The [try] block with its handlers: [sys.exit(0)] on a quit command
    (the bare [except] raises it again), the assignment
    [filename, mode = x], and [except ValueError], which sets both to the
    empty string.  The result is the locals and the exception in flight. *)
Definition parse (x : str) (l : locals) : locals * option exn :=
  let x := split x in
  if in_list dash_quit x || in_list quit x then (l, Some (SystemExit 0))
  else
    match x with
    | [f; m] => ({| filename := Some f; mode := Some m |}, None)
    | _ => ({| filename := Some []; mode := Some [] |}, None)
    end.

(** The inner [try] of the [finally] block: [open(filename, 'r')] with
    its handlers.  An unbound [filename] raises UnboundLocalError, which
    is a NameError: the first handler takes it. *)
Definition check_file (fs : str -> open_result) (l : locals)
  : locals * option exn :=
  match filename l with
  | None => ({| filename := None; mode := Some [] |}, None)
  | Some f =>
      match fs f with
      | Opened => (l, None)
      | FileNotFound | PermissionDenied =>
          ({| filename := Some f; mode := Some [] |}, None)
      | OtherError => (l, Some OpenError)
      end
  end.

(** The inner [finally]: [usage_modes.get(mode, lambda x: None)(filename)].
    The call is recorded; the called function is taken to return. *)
Definition dispatch (l : locals) : list call * option exn :=
  match mode l, filename l with
  | Some m, Some f =>
      match usage_modes m with
      | Some function => ([function f], None)
      | None => ([], None)
      end
  | _, _ => ([], Some UnboundLocalError)
  end.

(** One pass of [while True] on the input line [x]: the locals after it,
    the calls made and the exception that leaves the pass, if any.  An
    exception raised in a [finally] block replaces the one in flight. *)
Record pass_result := {
  after : locals;
  called : list call;
  raised : option exn
}.

Definition main_pass (fs : str -> open_result) (x : str) (l : locals)
  : pass_result :=
  let '(l1, e1) := parse x l in
  let '(l2, e2) := check_file fs l1 in
  let '(cs, e3) := dispatch l2 in
  {| after := l2; called := cs;
     raised := match e3, e2 with
               | Some e, _ => Some e
               | None, Some e => Some e
               | None, None => e1
               end |}.

(** [while True] over the lines that [input] returns; at the end of the
    input [input] raises EOFError. *)
Fixpoint main_loop (fs : str -> open_result) (inputs : list str)
  (l : locals) : list call * option exn :=
  match inputs with
  | [] => ([], Some EOFError)
  | x :: inputs' =>
      let r := main_pass fs x l in
      match raised r with
      | Some e => (called r, Some e)
      | None =>
          let '(cs, e) := main_loop fs inputs' (after r) in
          (called r ++ cs, e)
      end
  end.

Definition main (fs : str -> open_result) (inputs : list str)
  : list call * option exn :=
  main_loop fs inputs {| filename := None; mode := None |}.

(** A line that [main] takes as a quit command. *)
Definition quit_command (x : str) : bool :=
  in_list dash_quit (split x) || in_list quit (split x).

(** A string without a hyphen. *)
Definition no_hyphen (s : str) : Prop := Forall (fun c => c <> 45) s.

(** The file name held by the locals, if any, is neither ['quit'] nor
    ['-quit']. *)
Definition not_quit (l : locals) : Prop :=
  match filename l with
  | Some f => f <> quit /\ f <> dash_quit
  | None => True
  end.

(** ** Auxiliary notions of the proofs *)

(** The matrix builder with the accumulator taken in the integers: the
    same passes without the range checks of the C [int].  The proofs
    compute with it and show that, for keys of at most 129 characters, the
    builder above returns exactly what it returns. *)
Definition mix_step_Z (own other : matrix) (L L' j : Z) (aux k : Z)
  : option Z :=
  x <- getitem2 other 0 k ;;
  kj <- Py.mod_ (k + j) L' ;;
  y <- getitem2 other 0 kj ;;
  ak <- Py.mod_ (aux + k) L ;;
  z <- getitem2 own 0 ak ;;
  Some (aux + x * y * z).

Definition row_accumulator_Z (own other : matrix) (L L' i j : Z)
  : option Z :=
  a1 <- getitem2 own (-2) j ;;
  a2 <- getitem2 own (-2) (L - i) ;;
  b1 <- getitem2 own (-2) (j + 1) ;;
  b2 <- getitem2 own (-2) (Z.min 0 (j - 1)) ;;
  Py.for_each (Py.range L') (mix_step_Z own other L L' j) (a1 * a2 + b1 * b2).

Definition row_element_Z (own other : matrix) (L L' i j : Z) : option Z :=
  aux <- row_accumulator_Z own other L L' i j ;;
  Some (aux mod 256).

Fixpoint row_loop_Z (n : nat) (own other : matrix) (L L' i j : Z)
  (row : list Z) : option (list Z) :=
  match n with
  | O => Some row
  | S n' =>
      e <- row_element_Z own other L L' i j ;;
      row_loop_Z n' own other L L' i (j + 1) (row ++ [e])
  end.

Definition add_row_Z (other : matrix) (L L' : Z) (keystream : matrix)
  (i : Z) : option matrix :=
  let appended := keystream ++ [[]] in
  row <- row_loop_Z (Z.to_nat (L - i)) appended other L L' i 0 [] ;;
  Some (keystream ++ [row]).

Definition build_keystream_Z (other : matrix) (L L' stop : Z)
  (keystream : matrix) : option matrix :=
  Py.for_each (Py.range2 1 (1 + stop)) (add_row_Z other L L') keystream.

(** The matrix under construction and the other key's hold bytes only. *)
Definition byte_matrices (own other : matrix) : Prop :=
  Forall (Forall is_byte) own /\ Forall (Forall is_byte) other.

(** The check of C8 on one table index. *)
Definition table_entry_ok (x : Z) : bool :=
  match C.index _ODD x, C.index _INVERSE x with
  | Some o, Some i => (o =? 2 * x + 1) && ((o * i) mod 256 =? 1)
  | _, _ => false
  end.

(** Congruence modulo 256, with the ring operations as morphisms. *)
Definition cong256 (a b : Z) : Prop := a mod 256 = b mod 256.

#[local] Instance cong256_equiv : Equivalence cong256 := eqm_setoid 256.
#[local] Instance cong256_add :
  Proper (cong256 ==> cong256 ==> cong256) Z.add := Zplus_eqm 256.
#[local] Instance cong256_sub :
  Proper (cong256 ==> cong256 ==> cong256) Z.sub := Zminus_eqm 256.
#[local] Instance cong256_mul :
  Proper (cong256 ==> cong256 ==> cong256) Z.mul := Zmult_eqm 256.

(** [x] is a zero, an infinity or a finite number of sign [sx], or NaN. *)
Definition has_sign (sx : bool) (x : spec_float) : Prop :=
  match x with
  | S754_zero s | S754_infinity s | S754_finite s _ _ => s = sx
  | S754_nan => True
  end.

(** What holds of the matrix after [n] passes of the loop over i. *)
Definition built (K K' : list Z) (L L' : Z) (n : nat) (m : matrix) : Prop :=
  Py.len m = 1 + Z.of_nat n /\
  Py.getitem m 0 = Some K /\
  Forall (Forall is_byte) m /\
  forall i, 1 <= i <= Z.of_nat n ->
    exists prevRow row,
      Py.getitem m (i - 1) = Some prevRow /\
      Py.getitem m i = Some row /\
      Py.len row = L - i /\
      forall j, 0 <= j < L - i ->
        exists v, Py.getitem row j = Some v /\
                  spec_element K K' prevRow L L' i j (p_last L prevRow j)
                    = Some v.

(** The loop invariant.  [bytes], the file as it was, splits into the
    chunks already written back ([done]), the part of the current chunk
    already transformed ([cur]), the rest of the current chunk ([todo]) and
    the chunks not yet read ([rest]). *)
Definition loop_inv (chunk : Z) (ck : C.char_kind) (cipher : Z -> Z -> Z)
  (bytes : list Z) (st : loop_state) : Prop :=
  exists done cur todo rest,
    bytes = done ++ cur ++ todo ++ rest /\
    (Py.len done) mod chunk = 0 /\
    Py.len cur < chunk /\
    Py.len cur + Py.len todo <= chunk /\
    (rest <> [] -> Py.len cur + Py.len todo = chunk) /\
    count st = Py.len done + Py.len cur /\
    data st = map_from cipher (Py.len done) cur ++ todo /\
    content (datafile st) = map_from cipher 0 done ++ cur ++ todo ++ rest /\
    checksum st = sum (map (C.char_read ck) (map_from cipher 0 (done ++ cur))).

(** ** Facts on the tables *)

Lemma table_entries_ok : forallb table_entry_ok (Py.range 128) = true.
Proof. vm_compute. reflexivity. Qed.

Lemma in_range (n x : Z) : 0 <= x < n -> In x (Py.range n).
Proof.
  intros H. unfold Py.range. apply in_map_iff.
  exists (Z.to_nat x). split; [lia|]. apply in_seq. lia.
Qed.

Lemma table_lookup (x : Z) :
  0 <= x <= 127 ->
  exists o i, C.index _ODD x = Some o /\ C.index _INVERSE x = Some i /\
              o = 2 * x + 1 /\ (o * i) mod 256 = 1.
Proof.
  intros H.
  pose proof table_entries_ok as Hall.
  rewrite forallb_forall in Hall.
  specialize (Hall x (in_range 128 x ltac:(lia))).
  unfold table_entry_ok in Hall.
  destruct (C.index _ODD x) as [o|]; [|discriminate].
  destruct (C.index _INVERSE x) as [i|]; [|discriminate].
  apply andb_true_iff in Hall as [H1 H2].
  apply Z.eqb_eq in H1, H2.
  exists o, i. repeat split; assumption.
Qed.

(** [range(1, 256, 2)] has 128 elements: more fuel adds nothing. *)
Lemma odd_table_complete : Py.range_step 129 1 256 2 = _ODD.
Proof. reflexivity. Qed.

(** C8. For every x in 0..127, [_ODD[x] = 2x+1] and
    [_ODD[x] * _INVERSE[x]] is congruent to 1 modulo 256.  Both tables
    have 128 cells and are closed constants of the embedding: no operation
    takes or returns them, so none can change them. *)
Theorem odd_inverse_tables :
  Py.len _ODD = 128 /\ Py.len _INVERSE = 128 /\
  forall x, 0 <= x <= 127 ->
    exists o i, C.index _ODD x = Some o /\ C.index _INVERSE x = Some i /\
                o = 2 * x + 1 /\ (o * i) mod 256 = 1.
Proof.
  split; [reflexivity|]. split; [reflexivity|]. exact table_lookup.
Qed.

(** ** The RK+ transform *)

Lemma rk_index_range (byte1 byte2 : Z) :
  0 <= byte1 -> 0 <= byte2 ->
  RK.rk_index byte1 byte2 = ((byte1 + byte2) mod 256) / 2 /\
  0 <= RK.rk_index byte1 byte2 <= 127.
Proof.
  intros H1 H2. unfold RK.rk_index.
  rewrite Z.rem_mod_nonneg by lia.
  pose proof (Z.mod_pos_bound (byte1 + byte2) 256 ltac:(lia)) as Hm.
  rewrite Z.quot_div_nonneg by lia.
  split; [reflexivity|].
  split; [apply Z.div_pos; lia|].
  assert ((byte1 + byte2) mod 256 / 2 < 128)
    by (apply Z.div_lt_upper_bound; lia).
  lia.
Qed.

Lemma rem_then_mod (a : Z) : (Z.rem a 256) mod 256 = a mod 256.
Proof.
  pose proof (Z.quot_rem' a 256) as H.
  replace (Z.rem a 256) with (a + (- Z.quot a 256) * 256) by lia.
  apply Z_mod_plus_full.
Qed.

Lemma cong256_mod (a : Z) : cong256 (a mod 256) a.
Proof. exact (Zmod_eqm 256 a). Qed.

Lemma char_read_cong (ck : C.char_kind) (b : Z) :
  cong256 (C.char_read ck b) b.
Proof.
  unfold cong256. destruct ck; simpl; [|reflexivity].
  destruct (b <? 128); [reflexivity|].
  replace (b - 256) with (b + (-1) * 256) by lia.
  apply Z_mod_plus_full.
Qed.

Lemma encrypt_byte_spec (ck : C.char_kind) (p byte1 byte2 : Z) :
  0 <= byte1 < 256 -> 0 <= byte2 < 256 ->
  exists c, RK.encrypt_byte ck p byte1 byte2 = Some c /\
            RK.spec_encrypt p byte1 byte2 = Some c /\
            0 <= c < 256.
Proof.
  intros H1 H2.
  destruct (rk_index_range byte1 byte2) as [Hrk Hr]; [lia|lia|].
  unfold RK.encrypt_byte, RK.encrypt_int, RK.spec_encrypt.
  rewrite Hrk in *. set (r := ((byte1 + byte2) mod 256) / 2) in *.
  destruct (table_lookup r Hr) as (o1 & i1 & Ho1 & _ & _ & _).
  destruct (table_lookup (127 - r) ltac:(lia)) as (o2 & i2 & Ho2 & _ & _ & _).
  rewrite Ho1, Ho2. simpl.
  eexists. split; [reflexivity|]. unfold C.char_store.
  split; [|apply Z.mod_pos_bound; lia].
  f_equal. rewrite rem_then_mod.
  change (cong256 (((o1 * p + byte1 - byte2) mod 256) * o2)
                  ((o1 * C.char_read ck p + byte1 - byte2) * o2)).
  rewrite cong256_mod, (char_read_cong ck p). reflexivity.
Qed.

Lemma spec_decrypt_inverts (p byte1 byte2 c : Z) :
  0 <= p < 256 -> 0 <= byte1 < 256 -> 0 <= byte2 < 256 ->
  RK.spec_encrypt p byte1 byte2 = Some c ->
  RK.spec_decrypt c byte1 byte2 = Some p.
Proof.
  intros Hp H1 H2.
  destruct (rk_index_range byte1 byte2) as [Hrk Hr]; [lia|lia|].
  unfold RK.spec_encrypt, RK.spec_decrypt.
  rewrite Hrk in Hr. set (r := ((byte1 + byte2) mod 256) / 2) in *.
  destruct (table_lookup r Hr) as (o1 & i1 & Ho1 & Hi1 & _ & Hoi1).
  destruct (table_lookup (127 - r) ltac:(lia))
    as (o2 & i2 & Ho2 & Hi2 & _ & Hoi2).
  rewrite Ho1, Ho2, Hi1, Hi2. simpl.
  intros Hc. injection Hc as <-. f_equal.
  rewrite <- (Z.mod_small p 256) at 2 by lia.
  change (cong256
    ((((((o1 * p + byte1 - byte2) mod 256 * o2) mod 256 * i2) mod 256
       - byte1 + byte2) mod 256) * i1) p).
  assert (E1 : cong256 (o1 * i1) 1)
    by (unfold cong256; rewrite Hoi1; reflexivity).
  assert (E2 : cong256 (o2 * i2) 1)
    by (unfold cong256; rewrite Hoi2; reflexivity).
  rewrite !cong256_mod.
  replace ((o1 * p + byte1 - byte2) * o2 * i2)
    with ((o1 * p + byte1 - byte2) * (o2 * i2)) by ring.
  rewrite E2.
  replace (((o1 * p + byte1 - byte2) * 1 - byte1 + byte2) * i1)
    with (p * (o1 * i1)) by ring.
  rewrite E1. replace (p * 1) with p by ring. reflexivity.
Qed.

(** C1. For every plaintext byte p and mixing bytes byte1, byte2 in 0..255,
    on either kind of [char]: the byte the encrypt transform of the code
    leaves in the buffer is the ciphertext of the specification's formula,
    and the specification's decrypt transform maps it back to p. *)
Theorem decrypt_encrypt_roundtrip (ck : C.char_kind) (p byte1 byte2 : Z) :
  0 <= p < 256 -> 0 <= byte1 < 256 -> 0 <= byte2 < 256 ->
  exists c, RK.encrypt_byte ck p byte1 byte2 = Some c /\
            RK.spec_encrypt p byte1 byte2 = Some c /\
            RK.spec_decrypt c byte1 byte2 = Some p.
Proof.
  intros Hp H1 H2.
  destruct (encrypt_byte_spec ck p byte1 byte2 H1 H2) as (c & Hc & Hs & _).
  exists c. split; [exact Hc|]. split; [exact Hs|].
  exact (spec_decrypt_inverts p byte1 byte2 c Hp H1 H2 Hs).
Qed.

Lemma decrypt_encrypt_roundtrip_witness :
  exists c, RK.encrypt_byte C.SignedChar 200 250 17 = Some c /\
            RK.spec_encrypt 200 250 17 = Some c /\
            RK.spec_decrypt c 250 17 = Some 200.
Proof.
  apply (decrypt_encrypt_roundtrip C.SignedChar 200 250 17); lia.
Defined.

(** ** [necessary_length] *)

(** The literal is a canonical binary64 number within half a unit in the
    last place (2^-52) of 265/100. *)
Lemma lit_2_65_nearest :
  valid_binary Double.prec Double.emax Double.lit_2_65 = true /\
  Z.abs (100 * 5967269506265907 - 265 * 2 ^ 51) <= 50.
Proof. split; [reflexivity|]. vm_compute. discriminate. Qed.

Lemma ltb_infinity (s : spec_float) :
  Double.ltb (S754_infinity false) s = false.
Proof. destruct s as [[|]|[|]| |[|] m e]; reflexivity. Qed.

Lemma growth_overflows :
  growth_after 728 Double.lit_2_65 = S754_infinity false.
Proof. vm_compute. reflexivity. Qed.

Lemma loop_exit (n : nat) :
  forall (fuel : nat) (k : Z) (g size : spec_float),
    Double.ltb (growth_after n g) size = false ->
    (n < fuel)%nat ->
    exists k', necessary_length_loop fuel k g size = Some k' /\
               k <= k' <= k + Z.of_nat n.
Proof.
  induction n as [|n IH]; intros fuel k g size Hexit Hfuel;
    destruct fuel as [|fuel]; try lia; simpl in *.
  - rewrite Hexit. exists k. split; [reflexivity|lia].
  - destruct (Double.ltb g size).
    + destruct (IH fuel (k + 1) _ size Hexit ltac:(lia)) as (k' & Hk & Hb).
      exists k'. split; [exact Hk|lia].
    + exists k. split; [reflexivity|lia].
Qed.

Lemma loop_first_exit (fuel : nat) (k : Z) (g size : spec_float) :
  Double.ltb g size = false ->
  necessary_length_loop (S fuel) k g size = Some k.
Proof. intros H. simpl. rewrite H. reflexivity. Qed.

Lemma necessary_length_total (size : Z) :
  exists k, necessary_length size = Some k /\ 2 <= k <= 730.
Proof.
  destruct (loop_exit 728 necessary_length_fuel 2 Double.lit_2_65
              (Double.of_int size)) as (k & Hk & Hb).
  - rewrite growth_overflows. apply ltb_infinity.
  - apply Nat.ltb_lt. vm_compute. reflexivity.
  - exists k. split; [exact Hk|lia].
Qed.

Lemma binary_round_aux_sign (sx : bool) (m e : Z) (l : location) :
  has_sign sx (binary_round_aux Double.prec Double.emax sx m e l).
Proof.
  unfold binary_round_aux.
  destruct (shr_fexp _ _ m e l) as [mrs' e'].
  destruct (shr_fexp _ _ _ e' loc_Exact) as [mrs'' e''].
  destruct (shr_m mrs''); simpl; auto.
  destruct (e'' <=? _); simpl; auto.
Qed.

Lemma of_int_negative (p : positive) :
  has_sign true (Double.of_int (Zneg p)).
Proof.
  unfold Double.of_int, binary_normalize, binary_round.
  destruct (shl_align _ _ _) as [mz ez].
  apply binary_round_aux_sign.
Qed.

Lemma ltb_negative (x : spec_float) :
  has_sign true x -> Double.ltb Double.lit_2_65 x = false.
Proof.
  destruct x as [s|s| |s m e]; simpl; intros H; subst; reflexivity.
Qed.

Lemma no_pass_below_3 (size : Z) :
  size <= 2 -> Double.ltb Double.lit_2_65 (Double.of_int size) = false.
Proof.
  intros H. destruct size as [|p|p].
  - reflexivity.
  - assert (Hp : Z.pos p = 1 \/ Z.pos p = 2) by lia.
    destruct Hp as [-> | ->]; reflexivity.
  - apply ltb_negative, of_int_negative.
Qed.

(** C9. [necessary_length] returns 3 for size 7 and 6 for size 100; it is a
    function of [size] alone, and it returns a length for every positive
    size (the loop leaves within the fuel given). *)
Theorem necessary_length_examples :
  necessary_length 7 = Some 3 /\
  necessary_length 100 = Some 6 /\
  forall size, 0 < size -> exists k, necessary_length size = Some k.
Proof.
  split; [vm_compute; reflexivity|].
  split; [vm_compute; reflexivity|].
  intros size _. destruct (necessary_length_total size) as (k & Hk & _).
  exists k. exact Hk.
Qed.

(** C10. [necessary_length] returns on every integer input and its result
    is at least 2; for every size <= 2, zero and negatives included, the
    first test of the loop already fails (one unit of fuel is enough, the
    body runs no pass) and the result is exactly 2. *)
Theorem necessary_length_at_least_2 (size : Z) :
  exists k, necessary_length size = Some k /\ 2 <= k /\
            (size <= 2 ->
             k = 2 /\
             necessary_length_loop 1 2 Double.lit_2_65 (Double.of_int size)
               = Some 2).
Proof.
  destruct (necessary_length_total size) as (k & Hk & Hb).
  exists k. split; [exact Hk|]. split; [lia|].
  intros Hsmall.
  pose proof (no_pass_below_3 size Hsmall) as Hno.
  split.
  - assert (H2 : necessary_length size = Some 2)
      by exact (loop_first_exit 1023 2 _ _ Hno).
    congruence.
  - exact (loop_first_exit 0 2 _ _ Hno).
Qed.

(** ** Python sequences *)

Lemma getitem_nonneg {A : Type} (l : list A) (i : Z) :
  0 <= i -> Py.getitem l i = nth_error l (Z.to_nat i).
Proof.
  intros H. unfold Py.getitem.
  destruct (Z.ltb_spec i 0); [lia|].
  destruct (Z.ltb_spec i 0); [lia|reflexivity].
Qed.

Lemma getitem_neg {A : Type} (l : list A) (i : Z) :
  - Py.len l <= i < 0 ->
  Py.getitem l i = nth_error l (Z.to_nat (i + Py.len l)).
Proof.
  intros H. unfold Py.getitem.
  destruct (Z.ltb_spec i 0); [|lia].
  destruct (Z.ltb_spec (i + Py.len l) 0); [lia|reflexivity].
Qed.

Lemma getitem_at_index (l : list Z) (i : Z) :
  0 <= i -> Py.getitem l i = at_index l i.
Proof.
  intros H. rewrite getitem_nonneg by exact H.
  unfold at_index. destruct (Z.ltb_spec i 0); [lia|reflexivity].
Qed.

Lemma getitem_last (l : list Z) :
  Py.getitem l (-1) = at_index l (Py.len l - 1).
Proof.
  unfold Py.getitem, at_index, Py.len. simpl (-1 <? 0).
  cbv iota. replace (-1 + Z.of_nat (length l)) with (Z.of_nat (length l) - 1)
    by lia.
  reflexivity.
Qed.

Lemma getitem_Some {A : Type} (l : list A) (i : Z) :
  0 <= i < Py.len l -> exists v, Py.getitem l i = Some v.
Proof.
  intros H. rewrite getitem_nonneg by lia.
  destruct (nth_error l (Z.to_nat i)) as [v|] eqn:E; [eauto|].
  apply nth_error_None in E. unfold Py.len in H. lia.
Qed.

Lemma len_app {A : Type} (l1 l2 : list A) :
  Py.len (l1 ++ l2) = Py.len l1 + Py.len l2.
Proof. unfold Py.len. rewrite length_app. lia. Qed.

Lemma len_snoc {A : Type} (l : list A) (x : A) :
  Py.len (l ++ [x]) = Py.len l + 1.
Proof. rewrite len_app. reflexivity. Qed.

Lemma len_nonneg {A : Type} (l : list A) : 0 <= Py.len l.
Proof. unfold Py.len. lia. Qed.

Lemma in_range2 (a b x : Z) : In x (Py.range2 a b) <-> a <= x < b.
Proof.
  unfold Py.range2. rewrite in_map_iff. split.
  - intros (n & <- & Hn). apply in_seq in Hn. lia.
  - intros H. exists (Z.to_nat (x - a)). split; [lia|]. apply in_seq. lia.
Qed.

Lemma for_each_ext {S : Type} (ks : list Z) (f g : S -> Z -> option S) :
  (forall s k, In k ks -> f s k = g s k) ->
  forall s, Py.for_each ks f s = Py.for_each ks g s.
Proof.
  induction ks as [|k ks IH]; intros Hfg s; simpl; [reflexivity|].
  rewrite (Hfg s k) by (left; reflexivity).
  destruct (g s k); [|reflexivity].
  apply IH. intros s' k' Hin. apply Hfg. right. exact Hin.
Qed.

(** A loop invariant kept by every pass holds when the loop ends, and the
    loop does end without an exception. *)
Lemma for_each_invariant {S : Type} (P : S -> Prop) (ks : list Z)
  (f : S -> Z -> option S) :
  (forall s k, In k ks -> P s -> exists s', f s k = Some s' /\ P s') ->
  forall s, P s -> exists s', Py.for_each ks f s = Some s' /\ P s'.
Proof.
  induction ks as [|k ks IH]; intros Hstep s Hs; simpl.
  - exists s. split; [reflexivity|exact Hs].
  - destruct (Hstep s k (or_introl eq_refl) Hs) as (s1 & -> & Hs1).
    apply IH; [|exact Hs1].
    intros s2 k2 Hin. apply Hstep. right. exact Hin.
Qed.

Lemma getitem_app_l {A : Type} (l1 l2 : list A) (i : Z) :
  0 <= i < Py.len l1 -> Py.getitem (l1 ++ l2) i = Py.getitem l1 i.
Proof.
  intros H. rewrite !getitem_nonneg by lia.
  apply nth_error_app1. unfold Py.len in H. lia.
Qed.

Lemma getitem_app_r {A : Type} (l : list A) (x : A) :
  Py.getitem (l ++ [x]) (Py.len l) = Some x.
Proof.
  rewrite getitem_nonneg by apply len_nonneg.
  unfold Py.len. rewrite Nat2Z.id, nth_error_app2 by lia.
  rewrite Nat.sub_diag. reflexivity.
Qed.

Lemma getitem_appended_prev {A : Type} (l : list A) (x : A) :
  1 <= Py.len l ->
  Py.getitem (l ++ [x]) (-2) = Py.getitem l (Py.len l - 1).
Proof.
  intros H. rewrite getitem_neg by (rewrite len_snoc; lia).
  rewrite getitem_nonneg by lia.
  rewrite len_snoc.
  replace (-2 + (Py.len l + 1)) with (Py.len l - 1) by lia.
  apply nth_error_app1. unfold Py.len in *. lia.
Qed.

Lemma at_index_Some (l : list Z) (n : Z) :
  0 <= n < Py.len l -> exists v, at_index l n = Some v.
Proof.
  intros H. rewrite <- getitem_at_index by lia. apply getitem_Some. exact H.
Qed.

(** ** The builder over the integers: the recurrence of one element *)

Section RowElement.

Variables (own other : matrix) (K K' prev : list Z) (L L' i : Z).
Hypothesis own_prev : Py.getitem own (-2) = Some prev.
Hypothesis own_0 : Py.getitem own 0 = Some K.
Hypothesis other_0 : Py.getitem other 0 = Some K'.
Hypothesis L_pos : 0 < L.
Hypothesis i_le_L : 0 <= L - i.

Lemma mix_step_Z_spec (j aux k : Z) :
  0 <= j -> 0 <= k < L' ->
  mix_step_Z own other L L' j aux k = spec_update K K' L L' j aux k.
Proof.
  intros Hj Hk. unfold mix_step_Z, spec_update, getitem2, Py.mod_.
  rewrite own_0, other_0. simpl Py.bind.
  destruct (Z.eqb_spec L' 0) as [E|_]; [lia|].
  destruct (Z.eqb_spec L 0) as [E|_]; [lia|].
  simpl Py.bind.
  pose proof (Z.mod_pos_bound (k + j) L' ltac:(lia)).
  pose proof (Z.mod_pos_bound (aux + k) L ltac:(lia)).
  rewrite !getitem_at_index by lia. reflexivity.
Qed.

Lemma row_element_Z_spec (j : Z) :
  0 <= j ->
  row_element_Z own other L L' i j =
  spec_element K K' prev L L' i j (p_last L prev j).
Proof.
  intros Hj. unfold row_element_Z, row_accumulator_Z, spec_element, getitem2.
  rewrite own_prev. simpl Py.bind.
  rewrite !getitem_at_index by lia.
  assert (Hp : Py.getitem prev (Z.min 0 (j - 1)) =
               at_index prev (p_last L prev j)).
  { unfold p_last. destruct (Z.eqb_spec j 0) as [->|Hne].
    - apply getitem_last.
    - rewrite Z.min_l by lia. apply getitem_at_index. lia. }
  rewrite Hp.
  destruct (at_index prev j); [|reflexivity].
  destruct (at_index prev (L - i)); [|reflexivity].
  destruct (at_index prev (j + 1)); [|reflexivity].
  destruct (at_index prev (p_last L prev j)); [|reflexivity].
  simpl Py.bind.
  rewrite (for_each_ext _ (mix_step_Z own other L L' j)
             (spec_update K K' L L' j)); [reflexivity|].
  intros s k Hin. apply in_range2 in Hin. apply mix_step_Z_spec; lia.
Qed.

Hypothesis K_long : L <= Py.len K.
Hypothesis K'_long : L' <= Py.len K'.

Lemma spec_update_total (j acc k : Z) :
  0 <= k < L' -> exists acc', spec_update K K' L L' j acc k = Some acc'.
Proof.
  intros Hk. unfold spec_update.
  pose proof (Z.mod_pos_bound (k + j) L' ltac:(lia)).
  pose proof (Z.mod_pos_bound (acc + k) L ltac:(lia)).
  destruct (at_index_Some K' k ltac:(lia)) as (x & ->).
  destruct (at_index_Some K' ((k + j) mod L') ltac:(lia)) as (y & ->).
  destruct (at_index_Some K ((acc + k) mod L) ltac:(lia)) as (z & ->).
  simpl. eauto.
Qed.

Lemma spec_element_total (j : Z) :
  0 <= j -> j + 1 < Py.len prev -> L - i < Py.len prev ->
  exists v, spec_element K K' prev L L' i j (p_last L prev j) = Some v /\
            is_byte v.
Proof.
  intros Hj Hj1 Hi. unfold spec_element.
  destruct (at_index_Some prev j ltac:(lia)) as (a1 & ->).
  destruct (at_index_Some prev (L - i) ltac:(lia)) as (a2 & ->).
  destruct (at_index_Some prev (j + 1) ltac:(lia)) as (b1 & ->).
  assert (Hp : 0 <= p_last L prev j < Py.len prev)
    by (unfold p_last; destruct (j =? 0); lia).
  destruct (at_index_Some prev _ Hp) as (b2 & ->). simpl Py.bind.
  destruct (for_each_invariant (fun _ => True) (Py.range L')
              (spec_update K K' L L' j)) with (s := a1 * a2 + b1 * b2)
    as (acc & -> & _); [|exact I|].
  - intros s k Hin _. apply in_range2 in Hin.
    destruct (spec_update_total j s k ltac:(lia)) as (s' & ->). eauto.
  - simpl. eexists. split; [reflexivity|].
    unfold is_byte. apply Z.mod_pos_bound. lia.
Qed.

(** The [while] loop over j appends, for each j in turn, the element the
    recurrence gives. *)
Lemma row_loop_Z_spec (n : nat) :
  forall (j : Z) (row : list Z),
    0 <= j -> j + Z.of_nat n < Py.len prev -> L - i < Py.len prev ->
    exists tail,
      row_loop_Z n own other L L' i j row = Some (row ++ tail) /\
      length tail = n /\ Forall is_byte tail /\
      forall t, 0 <= t < Z.of_nat n ->
        exists v, Py.getitem tail t = Some v /\
                  spec_element K K' prev L L' i (j + t)
                    (p_last L prev (j + t)) = Some v.
Proof.
  induction n as [|n IH]; intros j row Hj Hn Hi.
  - exists []. simpl. rewrite app_nil_r.
    repeat split; [constructor|]. intros t Ht. lia.
  - simpl row_loop_Z. rewrite row_element_Z_spec by exact Hj.
    destruct (spec_element_total j Hj ltac:(lia) Hi) as (e & He & Hbyte).
    rewrite He. simpl Py.bind.
    destruct (IH (j + 1) (row ++ [e]) ltac:(lia) ltac:(lia) Hi)
      as (tail & Hrun & Hlen & Hbytes & Hspec).
    exists (e :: tail). rewrite Hrun, <- app_assoc. simpl.
    repeat split; [lia|constructor; assumption|].
    intros t Ht. destruct (Z.eq_dec t 0) as [->|Hne].
    + exists e. rewrite Z.add_0_r. split; [reflexivity|exact He].
    + destruct (Hspec (t - 1) ltac:(lia)) as (v & Hv & Hs).
      exists v. replace (j + t) with (j + 1 + (t - 1)) by lia.
      split; [|exact Hs].
      rewrite getitem_nonneg in * by lia.
      replace (Z.to_nat t) with (S (Z.to_nat (t - 1))) by lia.
      exact Hv.
Qed.

End RowElement.

(** ** The builder over the integers: the rows of one matrix *)

Lemma ceil_half_le (L i : Z) : 1 <= i <= Py.ceil_half L -> 0 < L /\ i <= L.
Proof.
  unfold Py.ceil_half. intros [H1 H2].
  Z.div_mod_to_equations. lia.
Qed.

Section BuildKeystream.

Variables (other : matrix) (K K' : list Z) (L L' : Z).
Hypothesis other_0 : Py.getitem other 0 = Some K'.
Hypothesis K_long : L <= Py.len K.
Hypothesis K'_long : L' <= Py.len K'.

Lemma add_row_Z_built (n : nat) (m : matrix) :
  built K K' L L' n m ->
  Z.of_nat (S n) <= Py.ceil_half L ->
  exists m', add_row_Z other L L' m (Z.of_nat (S n)) = Some m' /\
             built K K' L L' (S n) m'.
Proof.
  intros (Hlen & H0 & Hbytes & Hrows) Hstop.
  set (i := Z.of_nat (S n)) in *.
  destruct (ceil_half_le L i ltac:(lia)) as [HL Hi].
  (* the row above: the last row of [m] *)
  assert (Hprev : exists prevRow,
             Py.getitem m (i - 1) = Some prevRow /\ L - i < Py.len prevRow).
  { destruct n as [|n'].
    - exists K. replace (i - 1) with 0 by lia. split; [exact H0|lia].
    - destruct (Hrows (i - 1) ltac:(lia)) as (_ & row & _ & Hrow & Hl & _).
      exists row. split; [exact Hrow|lia]. }
  destruct Hprev as (prevRow & Hprev & Hlong).
  assert (Hown_prev : Py.getitem (m ++ [[]]) (-2) = Some prevRow).
  { rewrite getitem_appended_prev by lia.
    replace (Py.len m - 1) with (i - 1) by lia. exact Hprev. }
  assert (Hown_0 : Py.getitem (m ++ [[]]) 0 = Some K)
    by (rewrite getitem_app_l by lia; exact H0).
  destruct (row_loop_Z_spec (m ++ [[]]) other K K' prevRow L L' i
              Hown_prev Hown_0 other_0 HL ltac:(lia) K_long K'_long
              (Z.to_nat (L - i)) 0 []) as (row & Hrun & Hrl & Hrb & Hspec);
    [lia|lia|lia|].
  unfold add_row_Z. fold i. rewrite Hrun. simpl.
  eexists. split; [reflexivity|].
  assert (Hnew : Py.getitem (m ++ [row]) i = Some row).
  { replace i with (Py.len m) by lia. apply getitem_app_r. }
  split; [rewrite len_snoc; lia|].
  split; [rewrite getitem_app_l by lia; exact H0|].
  split.
  { apply Forall_app. split; [exact Hbytes|]. constructor; [exact Hrb|].
    constructor. }
  intros i' Hi'. destruct (Z.eq_dec i' i) as [->|Hne].
  - exists prevRow, row.
    split; [rewrite getitem_app_l by lia; exact Hprev|].
    split; [exact Hnew|].
    split; [unfold Py.len; lia|].
    intros j Hj. destruct (Hspec j ltac:(lia)) as (v & Hv & Hs).
    exists v. split; [exact Hv|exact Hs].
  - destruct (Hrows i' ltac:(lia)) as (p' & r' & Hp' & Hr' & Hl' & Hs').
    exists p', r'. rewrite !getitem_app_l by lia. auto.
Qed.

Lemma rows_Z_built (c : nat) :
  forall (a : nat) (m : matrix),
    built K K' L L' a m ->
    Z.of_nat (a + c) <= Py.ceil_half L ->
    exists m',
      Py.for_each (map (fun n => 1 + Z.of_nat n) (seq a c))
        (add_row_Z other L L') m = Some m' /\
      built K K' L L' (a + c) m'.
Proof.
  induction c as [|c IH]; intros a m Hm Hstop; cbn [seq map Py.for_each].
  - exists m. rewrite Nat.add_0_r. split; [reflexivity|exact Hm].
  - destruct (add_row_Z_built a m Hm ltac:(lia)) as (m1 & Hadd & Hm1).
    replace (1 + Z.of_nat a) with (Z.of_nat (S a)) by lia.
    rewrite Hadd.
    destruct (IH (S a) m1 Hm1 ltac:(lia)) as (m' & Hrun & Hm').
    exists m'. split; [exact Hrun|].
    replace (a + S c)%nat with (S a + c)%nat by lia. exact Hm'.
Qed.

Lemma build_keystream_Z_built :
  0 <= L -> Forall is_byte K ->
  exists m,
    build_keystream_Z other L L' (Py.ceil_half L) [K] = Some m /\
    built K K' L L' (Z.to_nat (Py.ceil_half L)) m.
Proof.
  intros HL HK. unfold build_keystream_Z, Py.range2.
  assert (0 <= Py.ceil_half L)
    by (unfold Py.ceil_half; Z.div_mod_to_equations; lia).
  replace (1 + Py.ceil_half L - 1) with (Py.ceil_half L) by lia.
  apply (rows_Z_built (Z.to_nat (Py.ceil_half L)) 0 [K]).
  - split; [reflexivity|]. split; [reflexivity|].
    split; [constructor; [exact HK|constructor]|].
    intros i Hi. simpl in Hi. lia.
  - lia.
Qed.

End BuildKeystream.

(** ** [as_bytes] *)

Lemma Some_eq {A : Type} (x y : A) : Some x = Some y -> x = y.
Proof. intros E. injection E as E. exact E. Qed.

Ltac bytes_of_encoding :=
  let E := fresh "E" in
  intros E; apply Some_eq in E; subst;
  split; [|cbn [length]; lia];
  repeat apply Forall_cons; try apply Forall_nil; cbv beta;
  Z.div_mod_to_equations; lia.

Lemma utf8_encode_bytes (c : Z) (b : list Z) :
  utf8_encode c = Some b -> Forall is_byte b /\ 1 <= Py.len b.
Proof.
  unfold utf8_encode, is_byte, Py.len.
  destruct (Z.ltb_spec c 0); [discriminate|].
  destruct (Z.ltb_spec c 128); [bytes_of_encoding|].
  destruct (Z.ltb_spec c 2048); [bytes_of_encoding|].
  destruct ((55296 <=? c) && (c <=? 57343)); [discriminate|].
  destruct (Z.ltb_spec c 65536); [bytes_of_encoding|].
  destruct (Z.ltb_spec c 1114112); [bytes_of_encoding|discriminate].
Qed.

Lemma as_bytes_bytes (x : list Z) :
  forall b, as_bytes x = Some b -> Forall is_byte b /\ Py.len x <= Py.len b.
Proof.
  induction x as [|c x IH]; simpl; intros b E.
  - injection E as <-. split; [constructor|reflexivity].
  - destruct (utf8_encode c) as [bc|] eqn:Ec; [|discriminate].
    destruct (as_bytes x) as [bs|]; [|discriminate].
    simpl in E. injection E as <-.
    destruct (utf8_encode_bytes c bc Ec) as [Hb Hl].
    destruct (IH bs eq_refl) as [Hbs Hls].
    split; [apply Forall_app; split; assumption|].
    rewrite len_app. unfold Py.len in *. simpl length. lia.
Qed.

Lemma as_bytes_ascii (x : list Z) : is_ascii x = true -> as_bytes x = Some x.
Proof.
  induction x as [|c x IH]; simpl; intros H; [reflexivity|].
  apply andb_true_iff in H as [Hc Hx].
  apply andb_true_iff in Hc as [H0 H1].
  apply Z.leb_le in H0. apply Z.ltb_lt in H1.
  unfold utf8_encode.
  destruct (Z.ltb_spec c 0); [lia|]. destruct (Z.ltb_spec c 128); [|lia].
  rewrite (IH Hx). reflexivity.
Qed.

(** ** The accumulator within the range of [int] *)

Lemma getitem_In {A : Type} (l : list A) (i : Z) (v : A) :
  Py.getitem l i = Some v -> In v l.
Proof.
  unfold Py.getitem. cbv zeta.
  destruct (_ <? 0); [discriminate|]. apply nth_error_In.
Qed.

Lemma matrix_entry_byte (m : matrix) (i idx v : Z) :
  Forall (Forall is_byte) m -> getitem2 m i idx = Some v -> is_byte v.
Proof.
  intros Hm. unfold getitem2.
  destruct (Py.getitem m i) as [row|] eqn:Er; [|discriminate]. simpl.
  intros Ev. apply getitem_In in Er, Ev.
  rewrite Forall_forall in Hm. specialize (Hm row Er).
  rewrite Forall_forall in Hm. exact (Hm v Ev).
Qed.

Lemma len_range (n : Z) : 0 <= n -> Py.len (Py.range n) = n.
Proof.
  intros H. unfold Py.len, Py.range, Py.range2.
  rewrite length_map, length_seq. lia.
Qed.

Lemma mix_step_Z_bound (own other : matrix) (L L' j aux k aux' : Z) :
  Forall (Forall is_byte) own -> Forall (Forall is_byte) other ->
  mix_step_Z own other L L' j aux k = Some aux' ->
  aux <= aux' <= aux + 16581375.
Proof.
  intros Hown Hother. unfold mix_step_Z.
  destruct (getitem2 other 0 k) as [x|] eqn:Ex; [|discriminate]. simpl.
  destruct (Py.mod_ (k + j) L') as [kj|]; [|discriminate]. simpl.
  destruct (getitem2 other 0 kj) as [y|] eqn:Ey; [|discriminate]. simpl.
  destruct (Py.mod_ (aux + k) L) as [ak|]; [|discriminate]. simpl.
  destruct (getitem2 own 0 ak) as [z|] eqn:Ez; [|discriminate]. simpl.
  intros E. injection E as <-.
  apply (matrix_entry_byte _ _ _ _ Hother) in Ex, Ey.
  apply (matrix_entry_byte _ _ _ _ Hown) in Ez.
  unfold is_byte in *.
  assert (0 <= x * y <= 65025) by nia.
  assert (0 <= x * y * z <= 16581375) by nia.
  lia.
Qed.



(** ** The builder of the source and the builder over the integers *)

Lemma int_of_py_Some (z : Z) :
  - 2147483648 <= z <= INT_MAX -> C.int_of_py z = Some z.
Proof.
  unfold C.int_of_py, INT_MAX. intros H.
  destruct (Z.leb_spec (-2147483648) z); [|lia].
  destruct (Z.leb_spec z 2147483647); [reflexivity|lia].
Qed.

Lemma int_of_py_eq (z v : Z) :
  C.int_of_py z = Some v -> v = z /\ - 2147483648 <= z <= INT_MAX.
Proof.
  unfold C.int_of_py, INT_MAX.
  destruct (Z.leb_spec (-2147483648) z); [|discriminate].
  destruct (Z.leb_spec z 2147483647); [|discriminate].
  simpl. intros E. apply Some_eq in E. lia.
Qed.

Lemma for_each_refines {S : Type} (ks : list Z) (f g : S -> Z -> option S) :
  (forall s k s', f s k = Some s' -> g s k = Some s') ->
  forall s s', Py.for_each ks f s = Some s' -> Py.for_each ks g s = Some s'.
Proof.
  intros Hfg. induction ks as [|k ks IH]; intros s s' E; simpl in *;
    [exact E|].
  destruct (f s k) as [s1|] eqn:E1; [|discriminate].
  rewrite (Hfg s k s1 E1). apply IH. exact E.
Qed.

Lemma for_each_agree {S : Type} (P : S -> Prop) (ks : list Z)
  (f g : S -> Z -> option S) :
  (forall s k, In k ks -> P s -> f s k = g s k) ->
  (forall s k s', In k ks -> P s -> g s k = Some s' -> P s') ->
  forall s, P s -> Py.for_each ks f s = Py.for_each ks g s.
Proof.
  induction ks as [|k ks IH]; intros Hfg Hkeep s Hs; simpl; [reflexivity|].
  rewrite (Hfg s k (or_introl eq_refl) Hs).
  destruct (g s k) as [s1|] eqn:E1; [|reflexivity].
  apply IH.
  - intros s2 k2 Hin. apply Hfg. right. exact Hin.
  - intros s2 k2 s3 Hin. apply (Hkeep s2 k2 s3). right. exact Hin.
  - apply (Hkeep s k s1 (or_introl eq_refl) Hs E1).
Qed.

(** What the builder of the source returns, the builder over the integers
    returns too: the range checks only remove results. *)
Lemma mix_step_exact (own other : matrix) (L L' j aux k aux' : Z) :
  mix_step own other L L' j aux k = Some aux' ->
  mix_step_Z own other L L' j aux k = Some aux'.
Proof.
  unfold mix_step, mix_step_Z, C.int_add.
  destruct (getitem2 other 0 k) as [x|]; [|discriminate]. cbn [Py.bind].
  destruct (Py.mod_ (k + j) L') as [kj|]; [|discriminate]. cbn [Py.bind].
  destruct (getitem2 other 0 kj) as [y|]; [|discriminate]. cbn [Py.bind].
  destruct (C.int_of_py (aux + k)) as [s|] eqn:Es; [|discriminate].
  apply int_of_py_eq in Es. destruct Es as [-> _]. cbn [Py.bind].
  destruct (Py.mod_ (aux + k) L) as [ak|]; [|discriminate]. cbn [Py.bind].
  destruct (getitem2 own 0 ak) as [z|]; [|discriminate]. cbn [Py.bind].
  intros E. apply int_of_py_eq in E. destruct E as [-> _]. reflexivity.
Qed.

Lemma row_accumulator_exact (own other : matrix) (L L' i j aux : Z) :
  row_accumulator own other L L' i j = Some aux ->
  row_accumulator_Z own other L L' i j = Some aux.
Proof.
  unfold row_accumulator, row_accumulator_Z.
  destruct (getitem2 own (-2) j) as [a1|]; [|discriminate]. cbn [Py.bind].
  destruct (getitem2 own (-2) (L - i)) as [a2|]; [|discriminate].
  cbn [Py.bind].
  destruct (C.int_of_py (a1 * a2)) as [aux0|] eqn:E0; [|discriminate].
  apply int_of_py_eq in E0. destruct E0 as [-> _]. cbn [Py.bind].
  destruct (getitem2 own (-2) (j + 1)) as [b1|]; [|discriminate].
  cbn [Py.bind].
  destruct (getitem2 own (-2) (Z.min 0 (j - 1))) as [b2|]; [|discriminate].
  cbn [Py.bind].
  destruct (C.int_of_py (a1 * a2 + b1 * b2)) as [aux1|] eqn:E1;
    [|discriminate].
  apply int_of_py_eq in E1. destruct E1 as [-> _]. cbn [Py.bind].
  apply for_each_refines. intros s k s'. apply mix_step_exact.
Qed.

Lemma row_element_exact (own other : matrix) (L L' i j e : Z) :
  row_element own other L L' i j = Some e ->
  row_element_Z own other L L' i j = Some e.
Proof.
  unfold row_element, row_element_Z.
  destruct (row_accumulator own other L L' i j) as [aux|] eqn:E;
    [|discriminate].
  rewrite (row_accumulator_exact _ _ _ _ _ _ _ E). trivial.
Qed.

Lemma row_loop_exact (own other : matrix) (L L' i : Z) (n : nat) :
  forall j row row',
    row_loop n own other L L' i j row = Some row' ->
    row_loop_Z n own other L L' i j row = Some row'.
Proof.
  induction n as [|n IH]; intros j row row' E; simpl in *; [exact E|].
  destruct (row_element own other L L' i j) as [e|] eqn:Ee; [|discriminate].
  rewrite (row_element_exact _ _ _ _ _ _ _ Ee). cbn [Py.bind] in *.
  apply IH. exact E.
Qed.

Lemma add_row_exact (other : matrix) (L L' : Z) (m m' : matrix) (i : Z) :
  add_row other L L' m i = Some m' -> add_row_Z other L L' m i = Some m'.
Proof.
  unfold add_row, add_row_Z.
  destruct (row_loop _ _ other L L' i 0 []) as [row|] eqn:E; [|discriminate].
  rewrite (row_loop_exact _ _ _ _ _ _ _ _ _ E). trivial.
Qed.

Lemma build_keystream_exact (other : matrix) (L L' stop : Z)
  (m m' : matrix) :
  build_keystream other L L' stop m = Some m' ->
  build_keystream_Z other L L' stop m = Some m'.
Proof.
  unfold build_keystream, build_keystream_Z. apply for_each_refines.
  intros s k s'. apply add_row_exact.
Qed.

(** With at most 129 passes of the [k] loop on bytes, no range check of
    the builder fails: both builders agree. *)
Lemma mix_step_agree (own other : matrix) (L L' j aux k : Z) :
  byte_matrices own other ->
  0 <= aux -> 0 <= k -> aux + k <= INT_MAX -> aux + 16581375 <= INT_MAX ->
  mix_step own other L L' j aux k = mix_step_Z own other L L' j aux k.
Proof.
  intros [Hown Hother] Haux Hk Hsum Hnext.
  unfold mix_step, mix_step_Z, C.int_add.
  destruct (getitem2 other 0 k) as [x|] eqn:Ex; [|reflexivity].
  cbn [Py.bind].
  destruct (Py.mod_ (k + j) L') as [kj|]; [|reflexivity]. cbn [Py.bind].
  destruct (getitem2 other 0 kj) as [y|] eqn:Ey; [|reflexivity].
  cbn [Py.bind].
  rewrite int_of_py_Some by lia. cbn [Py.bind].
  destruct (Py.mod_ (aux + k) L) as [ak|]; [|reflexivity]. cbn [Py.bind].
  destruct (getitem2 own 0 ak) as [z|] eqn:Ez; [|reflexivity].
  cbn [Py.bind].
  apply (matrix_entry_byte _ _ _ _ Hother) in Ex, Ey.
  apply (matrix_entry_byte _ _ _ _ Hown) in Ez.
  unfold is_byte in *.
  assert (0 <= x * y <= 65025) by nia.
  assert (0 <= x * y * z <= 16581375) by nia.
  apply int_of_py_Some. lia.
Qed.

Lemma mix_loop_agree (own other : matrix) (L L' j : Z) :
  byte_matrices own other ->
  forall ks aux,
    (forall k, In k ks -> 0 <= k <= 128) ->
    0 <= aux -> aux + Py.len ks * 16581375 <= 2139127425 ->
    Py.for_each ks (mix_step own other L L' j) aux
    = Py.for_each ks (mix_step_Z own other L L' j) aux.
Proof.
  intros Hb. induction ks as [|k ks IH]; intros aux Hks Haux Hbound;
    [reflexivity|].
  assert (Hlen : Py.len (k :: ks) = Py.len ks + 1)
    by (unfold Py.len; cbn [length]; lia).
  rewrite Hlen in Hbound. pose proof (len_nonneg ks) as Hn.
  pose proof (Hks k (or_introl eq_refl)) as Hk.
  cbn [Py.for_each].
  rewrite (mix_step_agree own other L L' j aux k Hb)
    by (unfold INT_MAX; nia).
  destruct (mix_step_Z own other L L' j aux k) as [aux'|] eqn:E;
    [|reflexivity].
  destruct Hb as [Hown Hother].
  pose proof (mix_step_Z_bound own other L L' j aux k aux' Hown Hother E).
  apply IH; [|lia|nia].
  intros k' Hin. apply Hks. right. exact Hin.
Qed.

Lemma row_accumulator_agree (own other : matrix) (L L' i j : Z) :
  byte_matrices own other -> 0 <= L' <= 129 ->
  row_accumulator own other L L' i j = row_accumulator_Z own other L L' i j.
Proof.
  intros Hb HL'. unfold row_accumulator, row_accumulator_Z.
  destruct (getitem2 own (-2) j) as [a1|] eqn:E1; [|reflexivity].
  cbn [Py.bind].
  destruct (getitem2 own (-2) (L - i)) as [a2|] eqn:E2; [|reflexivity].
  cbn [Py.bind].
  pose proof (matrix_entry_byte _ _ _ _ (proj1 Hb) E1) as H1.
  pose proof (matrix_entry_byte _ _ _ _ (proj1 Hb) E2) as H2.
  unfold is_byte in H1, H2.
  assert (0 <= a1 * a2 <= 65025) by nia.
  rewrite int_of_py_Some by (unfold INT_MAX; lia). cbn [Py.bind].
  destruct (getitem2 own (-2) (j + 1)) as [b1|] eqn:E3; [|reflexivity].
  cbn [Py.bind].
  destruct (getitem2 own (-2) (Z.min 0 (j - 1))) as [b2|] eqn:E4;
    [|reflexivity].
  cbn [Py.bind].
  pose proof (matrix_entry_byte _ _ _ _ (proj1 Hb) E3) as H3.
  pose proof (matrix_entry_byte _ _ _ _ (proj1 Hb) E4) as H4.
  unfold is_byte in H3, H4.
  assert (0 <= b1 * b2 <= 65025) by nia.
  rewrite int_of_py_Some by (unfold INT_MAX; lia). cbn [Py.bind].
  apply mix_loop_agree; [exact Hb| |lia|].
  - intros k Hin. apply in_range2 in Hin. lia.
  - rewrite len_range by lia. nia.
Qed.

Lemma row_loop_agree (own other : matrix) (L L' i : Z) (n : nat) :
  byte_matrices own other -> 0 <= L' <= 129 ->
  forall j row,
    row_loop n own other L L' i j row = row_loop_Z n own other L L' i j row.
Proof.
  intros Hb HL'. induction n as [|n IH]; intros j row; simpl;
    [reflexivity|].
  unfold row_element, row_element_Z.
  rewrite (row_accumulator_agree own other L L' i j Hb HL').
  destruct (row_accumulator_Z own other L L' i j); [|reflexivity].
  cbn [Py.bind]. apply IH.
Qed.

Lemma row_loop_Z_bytes (own other : matrix) (L L' i : Z) (n : nat) :
  forall j row row',
    row_loop_Z n own other L L' i j row = Some row' ->
    Forall is_byte row -> Forall is_byte row'.
Proof.
  induction n as [|n IH]; intros j row row' E Hrow; simpl in E.
  - apply Some_eq in E. subst. exact Hrow.
  - unfold row_element_Z in E.
    destruct (row_accumulator_Z own other L L' i j) as [aux|];
      [|discriminate].
    cbn [Py.bind] in E. apply (IH _ _ _ E).
    apply Forall_app. split; [exact Hrow|].
    constructor; [|constructor]. unfold is_byte.
    apply Z.mod_pos_bound. lia.
Qed.

Lemma appended_bytes (m : matrix) :
  Forall (Forall is_byte) m -> Forall (Forall is_byte) (m ++ [[]]).
Proof.
  intros H. apply Forall_app. split; [exact H|].
  constructor; constructor.
Qed.

Lemma add_row_agree (other : matrix) (L L' : Z) (m : matrix) (i : Z) :
  byte_matrices m other -> 0 <= L' <= 129 ->
  add_row other L L' m i = add_row_Z other L L' m i.
Proof.
  intros [Hm Hother] HL'. unfold add_row, add_row_Z.
  rewrite row_loop_agree;
    [reflexivity|split; [apply appended_bytes; exact Hm|exact Hother]|
     exact HL'].
Qed.

Lemma add_row_Z_bytes (other : matrix) (L L' : Z) (m m' : matrix) (i : Z) :
  add_row_Z other L L' m i = Some m' ->
  Forall (Forall is_byte) m -> Forall (Forall is_byte) m'.
Proof.
  unfold add_row_Z. intros E Hm.
  destruct (row_loop_Z _ _ other L L' i 0 []) as [row|] eqn:Er;
    [|discriminate].
  cbn [Py.bind] in E. apply Some_eq in E. subst m'.
  apply Forall_app. split; [exact Hm|].
  constructor; [|constructor].
  apply (row_loop_Z_bytes _ _ _ _ _ _ _ _ _ Er). constructor.
Qed.

Lemma build_keystream_agree (other : matrix) (L L' stop : Z) (m : matrix) :
  byte_matrices m other -> 0 <= L' <= 129 ->
  build_keystream other L L' stop m = build_keystream_Z other L L' stop m.
Proof.
  intros [Hm Hother] HL'. unfold build_keystream, build_keystream_Z.
  apply (for_each_agree (fun s => Forall (Forall is_byte) s)).
  - intros s k _ Hs. apply add_row_agree; [split; assumption|exact HL'].
  - intros s k s' _ Hs E. apply (add_row_Z_bytes _ _ _ _ _ _ E Hs).
  - exact Hm.
Qed.

(** ** [generate_keystreams]: both matrices *)

(** For keys of at most 129 characters the builder returns, and its
    matrices are the ones of the recurrence. *)
Lemma generate_keystreams_built (key1 key2 k1 k2 : list Z) :
  as_bytes key1 = Some k1 -> as_bytes key2 = Some k2 ->
  Py.len key1 <= 129 -> Py.len key2 <= 129 ->
  exists m1 m2,
    generate_keystreams key1 key2 = Some (m1, m2) /\
    built k1 k2 (Py.len key1) (Py.len key2)
      (Z.to_nat (Py.ceil_half (Py.len key1))) m1 /\
    built k2 k1 (Py.len key2) (Py.len key1)
      (Z.to_nat (Py.ceil_half (Py.len key2))) m2.
Proof.
  intros E1 E2 B1 B2.
  destruct (as_bytes_bytes key1 k1 E1) as [Hb1 Hl1].
  destruct (as_bytes_bytes key2 k2 E2) as [Hb2 Hl2].
  pose proof (len_nonneg key1) as N1. pose proof (len_nonneg key2) as N2.
  assert (Hk1 : Forall (Forall is_byte) [k1]) by (constructor; auto).
  assert (Hk2 : Forall (Forall is_byte) [k2]) by (constructor; auto).
  unfold generate_keystreams. rewrite E1, E2. simpl Py.bind.
  rewrite build_keystream_agree by (try split; assumption || lia).
  destruct (build_keystream_Z_built [k2] k1 k2 (Py.len key1) (Py.len key2)
              eq_refl Hl1 Hl2 N1 Hb1) as (m1 & -> & Hm1).
  simpl Py.bind.
  assert (H10 : Py.getitem m1 0 = Some k1) by apply Hm1.
  assert (Hm1b : Forall (Forall is_byte) m1) by apply Hm1.
  rewrite build_keystream_agree by (try split; assumption || lia).
  destruct (build_keystream_Z_built m1 k2 k1 (Py.len key2) (Py.len key1)
              H10 Hl2 Hl1 N2 Hb2) as (m2 & -> & Hm2).
  simpl. exists m1, m2. auto.
Qed.

(** For any keys: when the builder returns, its matrices are the ones of
    the recurrence. *)
Lemma generate_keystreams_returned (key1 key2 : list Z) (m1 m2 : matrix) :
  generate_keystreams key1 key2 = Some (m1, m2) ->
  exists k1 k2,
    as_bytes key1 = Some k1 /\ as_bytes key2 = Some k2 /\
    built k1 k2 (Py.len key1) (Py.len key2)
      (Z.to_nat (Py.ceil_half (Py.len key1))) m1 /\
    built k2 k1 (Py.len key2) (Py.len key1)
      (Z.to_nat (Py.ceil_half (Py.len key2))) m2.
Proof.
  unfold generate_keystreams.
  destruct (as_bytes key1) as [k1|] eqn:E1; [|discriminate].
  destruct (as_bytes key2) as [k2|] eqn:E2; [|discriminate].
  simpl Py.bind.
  destruct (as_bytes_bytes key1 k1 E1) as [Hb1 Hl1].
  destruct (as_bytes_bytes key2 k2 E2) as [Hb2 Hl2].
  destruct (build_keystream [k2] _ _ _ [k1]) as [b1|] eqn:B1;
    [|discriminate].
  simpl Py.bind.
  destruct (build_keystream b1 _ _ _ [k2]) as [b2|] eqn:B2; [|discriminate].
  simpl. intros E. apply Some_eq in E. injection E as -> ->.
  apply build_keystream_exact in B1, B2.
  destruct (build_keystream_Z_built [k2] k1 k2 (Py.len key1) (Py.len key2)
              eq_refl Hl1 Hl2 (len_nonneg key1) Hb1) as (m1' & Em1 & Hm1).
  rewrite B1 in Em1. apply Some_eq in Em1. subst m1'.
  assert (H10 : Py.getitem m1 0 = Some k1) by apply Hm1.
  destruct (build_keystream_Z_built m1 k2 k1 (Py.len key2) (Py.len key1)
              H10 Hl2 Hl1 (len_nonneg key2) Hb2) as (m2' & Em2 & Hm2).
  rewrite B2 in Em2. apply Some_eq in Em2. subst m2'.
  exists k1, k2. auto.
Qed.

Lemma ceil_half_nonneg (L : Z) : 0 <= L -> 0 <= Py.ceil_half L.
Proof. unfold Py.ceil_half. intros H. Z.div_mod_to_equations. lia. Qed.

Lemma built_shape (K K' : list Z) (L L' : Z) (m : matrix) :
  0 <= L ->
  built K K' L L' (Z.to_nat (Py.ceil_half L)) m -> keystream_shape K L m.
Proof.
  intros HL (Hlen & H0 & Hbytes & Hrows).
  pose proof (ceil_half_nonneg L HL).
  split; [lia|]. split; [exact H0|]. split; [|exact Hbytes].
  intros i Hi. destruct (Hrows i ltac:(lia)) as (_ & row & _ & Hr & Hl & _).
  exists row. auto.
Qed.


Lemma generate_keystreams_shape (key1 key2 k1 k2 : list Z) :
  as_bytes key1 = Some k1 -> as_bytes key2 = Some k2 ->
  Py.len key1 <= 129 -> Py.len key2 <= 129 ->
  exists m1 m2,
    generate_keystreams key1 key2 = Some (m1, m2) /\
    keystream_shape k1 (Py.len key1) m1 /\
    keystream_shape k2 (Py.len key2) m2.
Proof.
  intros E1 E2 B1 B2.
  destruct (generate_keystreams_built key1 key2 k1 k2 E1 E2 B1 B2)
    as (m1 & m2 & Hgen & Hm1 & Hm2).
  exists m1, m2. split; [exact Hgen|].
  split; [exact (built_shape _ _ _ _ _ (len_nonneg key1) Hm1)|].
  exact (built_shape _ _ _ _ _ (len_nonneg key2) Hm2).
Qed.

Lemma generate_keystreams_returned_shape (key1 key2 : list Z)
  (m1 m2 : matrix) :
  generate_keystreams key1 key2 = Some (m1, m2) ->
  exists k1 k2,
    as_bytes key1 = Some k1 /\ as_bytes key2 = Some k2 /\
    keystream_shape k1 (Py.len key1) m1 /\
    keystream_shape k2 (Py.len key2) m2.
Proof.
  intros Hgen.
  destruct (generate_keystreams_returned key1 key2 m1 m2 Hgen)
    as (k1 & k2 & E1 & E2 & Hm1 & Hm2).
  exists k1, k2. split; [exact E1|]. split; [exact E2|].
  split; [exact (built_shape _ _ _ _ _ (len_nonneg key1) Hm1)|].
  exact (built_shape _ _ _ _ _ (len_nonneg key2) Hm2).
Qed.









(** ** The positional byte mixer *)

Lemma sum_app (l1 l2 : list Z) : sum (l1 ++ l2) = sum l1 + sum l2.
Proof. induction l1 as [|x l1 IH]; simpl; [reflexivity|]. rewrite IH. lia. Qed.

(** Whatever the position, a byte the mixer delivers is in 0..255. *)
Lemma mixing_byte_range (m : matrix) (L stop count b : Z) :
  Forall (Forall is_byte) m ->
  mixing_byte m L stop count = Some b -> 0 <= b < 256.
Proof.
  intros Hm. unfold mixing_byte.
  assert (Hinv : forall ks acc r,
            0 <= acc -> Py.for_each ks (mix_row m L count) acc = Some r ->
            0 <= r).
  { induction ks as [|k ks IH]; simpl; intros acc r Hacc E.
    - injection E as <-. exact Hacc.
    - destruct (mix_row m L count acc k) as [acc'|] eqn:Estep;
        [|discriminate].
      apply (IH acc' r); [|exact E].
      unfold mix_row in Estep.
      destruct (C.rem count (L - k)) as [idx|]; [|discriminate].
      simpl in Estep.
      destruct (getitem2 m k idx) as [v|] eqn:Ev; [|discriminate].
      simpl in Estep. injection Estep as <-.
      pose proof (matrix_entry_byte m k idx v Hm Ev) as Hv.
      unfold is_byte in Hv. lia. }
  destruct (Py.for_each _ _ 0) as [byte|] eqn:E; [|discriminate].
  simpl. intros Eb. injection Eb as <-.
  pose proof (Hinv _ _ _ (Z.le_refl 0) E) as Hbyte.
  rewrite Z.rem_mod_nonneg by lia. apply Z.mod_pos_bound. lia.
Qed.

Lemma mixing_byte_rows (m m' : matrix) (L stop count : Z) :
  (forall i, 0 <= i < stop -> Py.getitem m' i = Py.getitem m i) ->
  mixing_byte m' L stop count = mixing_byte m L stop count.
Proof.
  intros Hrows. unfold mixing_byte.
  rewrite (for_each_ext _ (mix_row m' L count) (mix_row m L count));
    [reflexivity|].
  intros s i Hin. apply in_range2 in Hin.
  unfold mix_row, getitem2. rewrite Hrows by lia. reflexivity.
Qed.

Section Mixer.

Variables (m : matrix) (L stop t : Z).
Hypothesis rows : forall i, 0 <= i < stop ->
  exists row, Py.getitem m i = Some row /\ Py.len row = L - i /\ 0 < L - i.
Hypothesis bytes : Forall (Forall is_byte) m.
Hypothesis t_nonneg : 0 <= t.

Lemma row_index_in_row (i : Z) :
  0 <= i < stop -> 0 <= t mod (L - i) < L - i.
Proof.
  intros Hi. apply Z.mod_pos_bound.
  destruct (rows i Hi) as (_ & _ & _ & Hpos). exact Hpos.
Qed.

Lemma mix_row_term (byte i : Z) :
  0 <= i < stop ->
  mix_row m L t byte i = Some (byte + spec_term m L t i) /\
  0 <= spec_term m L t i.
Proof.
  intros Hi. pose proof (row_index_in_row i Hi) as Hidx.
  destruct (rows i Hi) as (row & Hrow & Hlen & _).
  unfold mix_row, C.rem, getitem2.
  destruct (Z.eqb_spec (L - i) 0); [lia|]. simpl Py.bind.
  rewrite Z.rem_mod_nonneg by lia. rewrite Hrow. simpl Py.bind.
  destruct (getitem_Some row (t mod (L - i)) ltac:(lia)) as (v & Hv).
  assert (Hterm : spec_term m L t i = v).
  { unfold spec_term.
    rewrite getitem_nonneg in Hrow by lia.
    rewrite getitem_nonneg in Hv by lia.
    rewrite (nth_error_nth _ _ _ Hrow). apply nth_error_nth. exact Hv. }
  rewrite Hv, Hterm. split; [reflexivity|].
  assert (Hb : is_byte v).
  { apply (matrix_entry_byte m i (t mod (L - i)) v bytes).
    unfold getitem2. rewrite Hrow. exact Hv. }
  unfold is_byte in Hb. lia.
Qed.

Lemma mix_rows_sum (ks : list Z) :
  (forall i, In i ks -> 0 <= i < stop) ->
  forall byte,
    Py.for_each ks (mix_row m L t) byte
      = Some (byte + sum (map (spec_term m L t) ks)) /\
    0 <= sum (map (spec_term m L t) ks).
Proof.
  induction ks as [|i ks IH]; intros Hks byte; simpl.
  - split; [f_equal; lia|lia].
  - destruct (mix_row_term byte i (Hks i (or_introl eq_refl))) as [-> Hpos].
    destruct (IH (fun k Hk => Hks k (or_intror Hk))
                 (byte + spec_term m L t i)) as [-> Hsum].
    split; [f_equal; lia|lia].
Qed.

Lemma mixer_formula_holds : mixer_formula m L stop t.
Proof.
  split; [|split].
  - unfold mixing_byte, mixing_sum.
    destruct (mix_rows_sum (Py.range stop)
                (fun i Hi => proj1 (in_range2 0 _ i) Hi) 0) as [-> Hpos].
    simpl. rewrite Z.rem_mod_nonneg by lia. reflexivity.
  - intros i Hi. destruct (rows i Hi) as (row & Hrow & Hlen & _).
    exists row. split; [exact Hrow|].
    pose proof (row_index_in_row i Hi). lia.
  - intros m' Hm'. apply mixing_byte_rows. exact Hm'.
Qed.

End Mixer.

Lemma stop_of_le (L : Z) :
  0 <= L -> 0 <= stop_of L <= Py.ceil_half L /\ 2 * stop_of L <= L.
Proof.
  intros H. unfold stop_of, Py.ceil_half.
  rewrite Z.quot_div_nonneg by lia. Z.div_mod_to_equations. lia.
Qed.

(** The rows that the loop of [nemesis_encrypt] reads, 0..stop-1 with
    stop = L / 2 truncated, are rows of the matrix, row i with L - i > 0
    elements, when row 0 has L elements. *)
Lemma shape_mixer_rows (K : list Z) (m : matrix) :
  keystream_shape K (Py.len K) m ->
  forall i, 0 <= i < stop_of (Py.len K) ->
    exists row, Py.getitem m i = Some row /\ Py.len row = Py.len K - i /\
                0 < Py.len K - i.
Proof.
  intros (_ & H0 & Hrows & _) i Hi.
  pose proof (stop_of_le (Py.len K) (len_nonneg K)) as Hs.
  destruct (Z.eq_dec i 0) as [->|Hne].
  - exists K. split; [exact H0|lia].
  - destruct (Hrows i ltac:(lia)) as (row & Hrow & Hlen).
    exists row. split; [exact Hrow|lia].
Qed.

(** C5, evaluated.  The keys "abc" and "xyz" (L = 3) and the one-byte file
    "A".  [nemesis_encrypt] takes stop = 3 / 2 = 1, where ceil(3/2) = 2:
    at position 0 its mixer delivers 97 and 120, the entries of row 0
    alone, where the sums of the claim over rows 0 and 1 are
    (97 + 51) mod 256 = 148 and (120 + 134) mod 256 = 254.  The loop
    accordingly leaves 78 in the buffer, the transform of 65 under 97 and
    120, and not 53, its transform under 148 and 254. *)
Theorem mixing_bytes_formula :
  exists m1 m2,
    generate_keystreams [97; 98; 99] [120; 121; 122] = Some (m1, m2) /\
    Py.getitem m1 0 = Some [97; 98; 99] /\
    Py.getitem m2 0 = Some [120; 121; 122] /\
    Py.getitem m1 1 = Some [51; 101] /\
    Py.getitem m2 1 = Some [134; 50] /\
    stop_of 3 = 1 /\ Py.ceil_half 3 = 2 /\
    mixing_byte m1 3 (stop_of 3) 0 = Some 97 /\
    mixing_byte m2 3 (stop_of 3) 0 = Some 120 /\
    spec_mixing_byte m1 3 0 = 148 /\
    spec_mixing_byte m2 3 0 = 254 /\
    RK.encrypt_byte C.SignedChar 65 97 120 = Some 78 /\
    RK.encrypt_byte C.SignedChar 65 148 254 = Some 53 /\
    exists st,
      final_state CHUNK C.SignedChar [97; 98; 99] [120; 121; 122] [65]
        = Some st /\
      data st = [78] /\ count st = 1.
Proof.
  eexists. eexists. split; [vm_compute; reflexivity|].
  repeat (split; [vm_compute; reflexivity|]).
  eexists. split; [vm_compute; reflexivity|]. split; reflexivity.
Qed.

(** ** Table lookups stay in bounds *)

Lemma bytes_lookups_in_bounds (byte1 byte2 : Z) :
  0 <= byte1 < 256 -> 0 <= byte2 < 256 -> lookups_in_bounds byte1 byte2.
Proof.
  intros H1 H2. unfold lookups_in_bounds.
  destruct (rk_index_range byte1 byte2) as [_ Hr]; [lia|lia|].
  set (r := RK.rk_index byte1 byte2) in *.
  destruct (table_lookup r Hr) as (o1 & i1 & Ho1 & Hi1 & _).
  destruct (table_lookup (127 - r) ltac:(lia)) as (o2 & i2 & Ho2 & Hi2 & _).
  split; [lia|]. split; [lia|].
  rewrite Ho1, Ho2, Hi1, Hi2. repeat (split; [discriminate|]).
  intros ck d. unfold RK.encrypt_int. fold r. rewrite Ho1, Ho2.
  discriminate.
Qed.

(** C7.  For every pair of keys for which [generate_keystreams] returns
    its matrices, every position and every choice of L and stop: the
    mixing bytes the loop obtains from the matrices are in 0..255 after
    [byte %= 256]; then RK and 127 - RK are in 0..127, every lookup in
    [_ODD] (and in [_INVERSE], for the inverse transform) is inside the
    table, and the transform of the byte does not fail. *)
Theorem odd_lookups_in_bounds (key1 key2 : list Z) (m1 m2 : matrix) :
  generate_keystreams key1 key2 = Some (m1, m2) ->
  forall L1 L2 stop1 stop2 count byte1 byte2,
    mixing_byte m1 L1 stop1 count = Some byte1 ->
    mixing_byte m2 L2 stop2 count = Some byte2 ->
    0 <= byte1 < 256 /\ 0 <= byte2 < 256 /\
    lookups_in_bounds byte1 byte2.
Proof.
  intros Hgen.
  destruct (generate_keystreams_returned_shape key1 key2 m1 m2 Hgen)
    as (k1 & k2 & _ & _ & S1 & S2).
  intros L1 L2 stop1 stop2 count byte1 byte2 Hb1 Hb2.
  assert (R1 : 0 <= byte1 < 256)
    by (apply (mixing_byte_range m1 L1 stop1 count); [apply S1|exact Hb1]).
  assert (R2 : 0 <= byte2 < 256)
    by (apply (mixing_byte_range m2 L2 stop2 count); [apply S2|exact Hb2]).
  split; [exact R1|]. split; [exact R2|].
  apply bytes_lookups_in_bounds; assumption.
Qed.

Lemma odd_lookups_in_bounds_witness :
  0 <= 97 < 256 /\ 0 <= 120 < 256 /\ lookups_in_bounds 97 120.
Proof.
  apply (odd_lookups_in_bounds [97; 98; 99] [120; 121; 122]
           [[97; 98; 99]; [51; 101]; [15]]
           [[120; 121; 122]; [134; 50]; [156]]
           ltac:(vm_compute; reflexivity)
           3 3 (stop_of 3) (stop_of 3) 0 97 120);
    vm_compute; reflexivity.
Defined.

(** ** The byte loop *)

Lemma c_index_app (A B : list Z) (d : Z) :
  C.index (A ++ d :: B) (Py.len A) = Some d.
Proof.
  unfold C.index, Py.len.
  destruct (Z.ltb_spec (Z.of_nat (length A)) 0); [lia|].
  rewrite Nat2Z.id, nth_error_app2 by lia.
  rewrite Nat.sub_diag. reflexivity.
Qed.

Lemma set_nth_app (A B : list Z) (d v : Z) :
  C.set_nth (length A) v (A ++ d :: B) = Some (A ++ v :: B).
Proof.
  induction A as [|a A IH]; simpl; [reflexivity|].
  rewrite IH. reflexivity.
Qed.

Lemma c_store_app (A B : list Z) (d v : Z) :
  C.store (A ++ d :: B) (Py.len A) v = Some (A ++ v :: B).
Proof.
  unfold C.store, Py.len.
  destruct (Z.ltb_spec (Z.of_nat (length A)) 0); [lia|].
  rewrite Nat2Z.id. apply set_nth_app.
Qed.

Lemma map_from_length (f : Z -> Z -> Z) (l : list Z) :
  forall t, length (map_from f t l) = length l.
Proof. induction l as [|d l IH]; intros t; simpl; [|rewrite IH]; reflexivity. Qed.

Lemma map_from_len (f : Z -> Z -> Z) (t : Z) (l : list Z) :
  Py.len (map_from f t l) = Py.len l.
Proof. unfold Py.len. rewrite map_from_length. reflexivity. Qed.

Lemma map_from_app (f : Z -> Z -> Z) (l1 l2 : list Z) :
  forall t, map_from f t (l1 ++ l2) =
            map_from f t l1 ++ map_from f (t + Py.len l1) l2.
Proof.
  induction l1 as [|d l1 IH]; intros t; simpl.
  - rewrite Z.add_0_r. reflexivity.
  - rewrite IH. do 3 f_equal. unfold Py.len. simpl length. lia.
Qed.

Lemma map_from_ext (f g : Z -> Z -> Z) (l : list Z) :
  forall t, (forall u d, t <= u -> f u d = g u d) ->
            map_from f t l = map_from g t l.
Proof.
  induction l as [|d l IH]; intros t H; simpl; [reflexivity|].
  rewrite (H t d) by lia. f_equal. apply IH.
  intros u e Hu. apply H. lia.
Qed.

Lemma firstn_exact {A : Type} (n : nat) (l1 l2 : list A) :
  length l1 = n -> firstn n (l1 ++ l2) = l1.
Proof.
  intros <-. rewrite firstn_app, Nat.sub_diag, firstn_all. simpl.
  apply app_nil_r.
Qed.

Lemma skipn_exact {A : Type} (n : nat) (l1 l2 : list A) :
  length l1 = n -> skipn n (l1 ++ l2) = l2.
Proof.
  intros <-. rewrite skipn_app, Nat.sub_diag, skipn_all. reflexivity.
Qed.

Lemma skipn_nonempty {A : Type} (n : nat) (l : list A) :
  skipn n l <> [] -> length (firstn n l) = n.
Proof.
  intros H. rewrite length_firstn.
  destruct (Nat.le_gt_cases n (length l)) as [Hle|Hgt]; [lia|].
  exfalso. apply H. apply skipn_all2. lia.
Qed.

Lemma mod_chunk_offset (chunk a b : Z) :
  0 < chunk -> a mod chunk = 0 -> (a + b) mod chunk = b mod chunk.
Proof.
  intros Hc Ha. rewrite Z.add_mod by lia. rewrite Ha, Z.add_0_l.
  apply Z.mod_mod. lia.
Qed.

Section ByteLoopFacts.

Variable chunk : Z.
Variable ck : C.char_kind.
Variables keystream1 keystream2 : matrix.
Variables L1 L2 stop1 stop2 : Z.
Hypothesis chunk_pos : 0 < chunk.

(** The mixer delivers both bytes at every position. *)
Hypothesis mixer_total : forall t, 0 <= t ->
  exists byte1 byte2,
    mixing_byte keystream1 L1 stop1 t = Some byte1 /\
    mixing_byte keystream2 L2 stop2 t = Some byte2 /\
    0 <= byte1 < 256 /\ 0 <= byte2 < 256.

Let cipher (t d : Z) : Z :=
  match transform ck keystream1 keystream2 L1 L2 stop1 stop2 t d with
  | Some c => c
  | None => 0
  end.

Let step := encrypt_step chunk ck keystream1 keystream2 L1 L2 stop1 stop2.

(** One pass on a buffer [A ++ d :: B] whose cell [count % chunk] holds
    [d]: the cell receives the transformed byte, the checksum grows by that
    byte read back through [char], and the file is written only when the
    new count is a multiple of the chunk size. *)
Lemma encrypt_step_spec (st : loop_state) (A B : list Z) (d : Z) :
  0 <= count st ->
  data st = A ++ d :: B ->
  (count st) mod chunk = Py.len A ->
  let c := cipher (count st) d in
  let data' := A ++ c :: B in
  let checksum' := checksum st + C.char_read ck c in
  0 <= c < 256 /\
  step st =
    Some (if (count st + 1) mod chunk =? 0 then
            let f := write data' (seek (count st + 1 - chunk) (datafile st)) in
            {| data := fst (read chunk f); count := count st + 1;
               checksum := checksum'; datafile := snd (read chunk f) |}
          else
            {| data := data'; count := count st + 1;
               checksum := checksum'; datafile := datafile st |}).
Proof.
  intros Hc Hdata Hidx c data' checksum'.
  destruct (mixer_total (count st) Hc) as (b1 & b2 & Hb1 & Hb2 & R1 & R2).
  destruct (encrypt_byte_spec ck d b1 b2 R1 R2) as (v & Hv & _ & Hvr).
  assert (Hcipher : c = v).
  { unfold c, cipher, transform. rewrite Hb1, Hb2. simpl. rewrite Hv.
    reflexivity. }
  split; [rewrite Hcipher; exact Hvr|].
  unfold step, encrypt_step. rewrite Hb1, Hb2. simpl Py.bind.
  unfold C.rem. destruct (Z.eqb_spec chunk 0); [lia|]. simpl Py.bind.
  rewrite !Z.rem_mod_nonneg by lia.
  rewrite Hidx, Hdata, c_index_app. simpl Py.bind.
  unfold RK.encrypt_byte in Hv.
  destruct (RK.encrypt_int ck d b1 b2) as [rk|]; [|discriminate].
  simpl in Hv. injection Hv as Hv. simpl Py.bind.
  rewrite Hv, c_store_app. simpl Py.bind.
  rewrite c_index_app. simpl Py.bind.
  unfold data', checksum'. rewrite Hcipher.
  destruct ((count st + 1) mod chunk =? 0); reflexivity.
Qed.


Variable bytes : list Z.

Lemma checksum_snoc (l : list Z) (d : Z) :
  sum (map (C.char_read ck) (map_from cipher 0 (l ++ [d]))) =
  sum (map (C.char_read ck) (map_from cipher 0 l))
  + C.char_read ck (cipher (Py.len l) d).
Proof.
  rewrite map_from_app, map_app, sum_app. simpl. lia.
Qed.

Lemma loop_inv_step (st : loop_state) :
  loop_inv chunk ck cipher bytes st -> count st < Py.len bytes ->
  exists st', step st = Some st' /\ loop_inv chunk ck cipher bytes st' /\
              count st' = count st + 1.
Proof.
  intros (done & cur & todo & rest & Hb & Hdone & Hcur & Hfit & Hrest
          & Hcount & Hdata & Hcontent & Hsum) Hlt.
  pose proof (len_nonneg done). pose proof (len_nonneg cur).
  pose proof (len_nonneg todo). pose proof (len_nonneg rest).
  assert (Hsize : Py.len bytes
                  = Py.len done + Py.len cur + Py.len todo + Py.len rest)
    by (rewrite Hb, !len_app; lia).
  destruct todo as [|d todo].
  { exfalso. destruct rest as [|r rest].
    - unfold Py.len in *. simpl in *. lia.
    - assert (Py.len cur + Py.len (@nil Z) = chunk)
        by (apply Hrest; discriminate).
      unfold Py.len in *. simpl in *. lia. }
  assert (Hidx : count st mod chunk = Py.len (map_from cipher (Py.len done) cur)).
  { rewrite map_from_len, Hcount, mod_chunk_offset by assumption.
    apply Z.mod_small. lia. }
  destruct (encrypt_step_spec st _ todo d ltac:(lia) Hdata Hidx)
    as [_ Hstep].
  rewrite Hstep. clear Hstep. eexists. split; [reflexivity|].
  assert (Hlen_todo : Py.len (d :: todo) = 1 + Py.len todo)
    by (unfold Py.len; simpl length; lia).
  assert (Hnext : (count st + 1) mod chunk = (Py.len cur + 1) mod chunk)
    by (rewrite Hcount, <- Z.add_assoc; apply mod_chunk_offset; assumption).
  assert (Hcipher : map_from cipher (Py.len done) cur ++ [cipher (count st) d]
                    = map_from cipher (Py.len done) (cur ++ [d]))
    by (rewrite map_from_app, Hcount; reflexivity).
  destruct (Z.eqb_spec ((count st + 1) mod chunk) 0) as [Hfull|Hpart].
  - (* the chunk is complete: written back, the next one read *)
    assert (Hlast : Py.len cur + 1 = chunk).
    { rewrite Hnext in Hfull.
      destruct (Z.eq_dec (Py.len cur + 1) chunk) as [E|NE]; [exact E|].
      rewrite Z.mod_small in Hfull by lia. lia. }
    assert (todo = []) by (destruct todo; [reflexivity|];
      unfold Py.len in *; simpl length in *; lia).
    subst todo. rewrite Hcipher.
    set (block := map_from cipher (Py.len done) (cur ++ [d])).
    assert (Hblock : length block = (length cur + 1)%nat)
      by (unfold block; rewrite map_from_length, length_app; reflexivity).
    assert (Hwritten :
      content (write block (seek (count st + 1 - chunk) (datafile st)))
      = map_from cipher 0 (done ++ cur ++ [d]) ++ rest).
    { unfold write, seek. cbn [content pos].
      replace (count st + 1 - chunk) with (Py.len done) by lia.
      unfold Py.len at 1 2. rewrite Nat2Z.id, Hcontent.
      rewrite firstn_exact by apply map_from_length.
      replace (map_from cipher 0 done ++ cur ++ [d] ++ rest)
        with ((map_from cipher 0 done ++ cur ++ [d]) ++ rest)
        by (rewrite <- !app_assoc; reflexivity).
      rewrite skipn_exact
        by (rewrite !length_app, map_from_length; simpl; lia).
      rewrite (map_from_app cipher done). rewrite <- app_assoc.
      reflexivity. }
    assert (Hread :
      fst (read chunk (write block (seek (count st + 1 - chunk) (datafile st))))
      = firstn (Z.to_nat chunk) rest).
    { unfold read. cbn [fst]. rewrite Hwritten. f_equal.
      unfold write, seek. cbn [pos].
      replace (count st + 1 - chunk) with (Py.len done) by lia.
      rewrite (map_from_app cipher done). apply skipn_exact.
      rewrite !length_app, !map_from_length, length_app. unfold Py.len.
      rewrite Hblock. simpl length. lia. }
    split; [|reflexivity].
    exists (done ++ cur ++ [d]), [],
           (firstn (Z.to_nat chunk) rest), (skipn (Z.to_nat chunk) rest).
    cbn [data count checksum datafile].
    split.
    { rewrite Hb. simpl. rewrite firstn_skipn, <- !app_assoc. reflexivity. }
    split.
    { rewrite !len_app. replace (Py.len [d]) with 1 by reflexivity.
      replace (Py.len done + (Py.len cur + 1)) with (Py.len done + chunk)
        by lia.
      rewrite mod_chunk_offset by assumption. apply Z.mod_same. lia. }
    split; [unfold Py.len; simpl; lia|].
    assert (Hfirst : Py.len (firstn (Z.to_nat chunk) rest) <= chunk)
      by (unfold Py.len; rewrite length_firstn; lia).
    split; [unfold Py.len at 1; simpl; lia|].
    split.
    { intros Hne. apply skipn_nonempty in Hne.
      unfold Py.len. simpl length. lia. }
    split.
    { rewrite !len_app. replace (Py.len [d]) with 1 by reflexivity.
      replace (Py.len (@nil Z)) with 0 by reflexivity. lia. }
    split; [rewrite Hread; reflexivity|].
    split.
    { unfold read. cbn [snd content]. rewrite Hwritten. simpl.
      rewrite firstn_skipn. reflexivity. }
    rewrite app_nil_r, app_assoc, checksum_snoc, Hsum.
    rewrite len_app, Hcount. reflexivity.
  - (* inside the chunk: the file is left alone *)
    split; [|reflexivity].
    exists done, (cur ++ [d]), todo, rest.
    cbn [data count checksum datafile].
    assert (Hcur' : Py.len (cur ++ [d]) = Py.len cur + 1) by apply len_snoc.
    split; [rewrite Hb, <- !app_assoc; reflexivity|].
    split; [exact Hdone|].
    split.
    { rewrite Hcur'. destruct (Z.eq_dec (Py.len cur + 1) chunk) as [E|NE];
        [|lia].
      exfalso. apply Hpart. rewrite Hnext, E. apply Z.mod_same. lia. }
    split; [lia|].
    split; [intros Hne; specialize (Hrest Hne); lia|].
    split; [lia|].
    split; [rewrite <- Hcipher, <- app_assoc; reflexivity|].
    split; [rewrite Hcontent, <- !app_assoc; reflexivity|].
    rewrite app_assoc, checksum_snoc, Hsum, len_app, Hcount. reflexivity.
Qed.

Let loop := encrypt_loop chunk ck keystream1 keystream2 L1 L2 stop1 stop2.

Lemma encrypt_loop_runs (fuel : nat) :
  forall st,
    loop_inv chunk ck cipher bytes st -> count st <= Py.len bytes ->
    (Z.to_nat (Py.len bytes - count st) < fuel)%nat ->
    exists st', loop fuel (Py.len bytes) st = Some st' /\
                loop_inv chunk ck cipher bytes st' /\
                count st' = Py.len bytes.
Proof.
  induction fuel as [|fuel IH]; intros st Hinv Hle Hfuel; [lia|].
  unfold loop. simpl. fold loop.
  destruct (Z.ltb_spec (count st) (Py.len bytes)) as [Hlt|Hge].
  - destruct (loop_inv_step st Hinv Hlt) as (st1 & Hstep & Hinv1 & Hc1).
    unfold step in Hstep. rewrite Hstep. simpl.
    apply IH; [exact Hinv1|lia|lia].
  - exists st. split; [reflexivity|]. split; [exact Hinv|lia].
Qed.

Lemma whole_chunks_split (done cur : list Z) :
  bytes = done ++ cur -> (Py.len done) mod chunk = 0 -> Py.len cur < chunk ->
  whole_chunks chunk bytes = Py.len done.
Proof.
  intros Hb Hdone Hcur. unfold whole_chunks.
  pose proof (len_nonneg cur).
  rewrite Hb, len_app.
  pose proof (Z.div_mod (Py.len done) chunk ltac:(lia)) as Hd.
  rewrite Hdone, Z.add_0_r in Hd.
  set (k := Py.len done / chunk) in *.
  replace (Py.len done) with (k * chunk) by lia.
  rewrite Z.div_add_l, (Z.div_small (Py.len cur)) by lia. ring.
Qed.

(** The state in which the loop ends: the file holds the ciphertext of
    its whole chunks followed by its last, partial chunk as it was; the
    ciphertext of the partial chunk is in the buffer only; the checksum
    is the sum of all ciphertext bytes read through [char]. *)
Lemma encrypt_loop_result :
  let w := Z.to_nat (whole_chunks chunk bytes) in
  exists st,
    loop (S (Z.to_nat (Py.len bytes))) (Py.len bytes)
      {| data := fst (read chunk {| content := bytes; pos := 0 |});
         count := 0; checksum := 0;
         datafile := snd (read chunk {| content := bytes; pos := 0 |}) |}
      = Some st /\
    count st = Py.len bytes /\
    content (datafile st) = map_from cipher 0 (firstn w bytes) ++ skipn w bytes /\
    data st = map_from cipher (whole_chunks chunk bytes) (skipn w bytes) /\
    checksum st = sum (map (C.char_read ck) (map_from cipher 0 bytes)).
Proof.
  intros w.
  pose proof (len_nonneg bytes) as Hsize.
  destruct (encrypt_loop_runs (S (Z.to_nat (Py.len bytes)))
              {| data := fst (read chunk {| content := bytes; pos := 0 |});
                 count := 0; checksum := 0;
                 datafile := snd (read chunk {| content := bytes; pos := 0 |}) |})
    as (st & Hrun & Hinv & Hcount).
  - exists [], [], (firstn (Z.to_nat chunk) bytes),
           (skipn (Z.to_nat chunk) bytes).
    cbn [data count checksum datafile read fst snd content pos].
    assert (Hf : Py.len (firstn (Z.to_nat chunk) bytes) <= chunk)
      by (unfold Py.len; rewrite length_firstn; lia).
    split; [simpl; rewrite firstn_skipn; reflexivity|].
    split; [apply Z.mod_0_l; lia|].
    split; [exact chunk_pos|].
    split; [exact Hf|].
    split; [intros Hne; apply skipn_nonempty in Hne;
            unfold Py.len; simpl length; lia|].
    split; [reflexivity|].
    split; [reflexivity|].
    split; [simpl; rewrite firstn_skipn; reflexivity|reflexivity].
  - simpl. lia.
  - simpl. lia.
  - exists st. split; [exact Hrun|]. split; [exact Hcount|].
    destruct Hinv as (done & cur & todo & rest & Hb & Hdone & Hcur & _ & _
                      & Hc & Hdata & Hcontent & Hsum).
    assert (Hlen : Py.len bytes
                   = Py.len done + Py.len cur + Py.len todo + Py.len rest)
      by (rewrite Hb, !len_app; lia).
    assert (todo = []) by (destruct todo; [reflexivity|];
      pose proof (len_nonneg rest); unfold Py.len in *; simpl length in *;
      lia).
    assert (rest = []) by (destruct rest; [reflexivity|];
      pose proof (len_nonneg todo); unfold Py.len in *; simpl length in *;
      lia).
    subst todo rest. rewrite !app_nil_r in *.
    pose proof (whole_chunks_split done cur Hb Hdone Hcur) as Hw.
    assert (Hwn : length done = w)
      by (unfold w; rewrite Hw; unfold Py.len; lia).
    assert (Hfirst : firstn w bytes = done)
      by (rewrite Hb; apply firstn_exact; exact Hwn).
    assert (Hskip : skipn w bytes = cur)
      by (rewrite Hb; apply skipn_exact; exact Hwn).
    rewrite Hfirst, Hskip, Hw.
    split; [exact Hcontent|]. split; [exact Hdata|].
    rewrite Hsum, Hb. reflexivity.
Qed.

End ByteLoopFacts.

(** ** [nemesis_encrypt] as a whole *)

Lemma ascii_mixer_total (key1 key2 : list Z) (m1 m2 : matrix) :
  is_ascii key1 = true -> is_ascii key2 = true ->
  generate_keystreams key1 key2 = Some (m1, m2) ->
  Py.getitem m1 0 = Some key1 /\ Py.getitem m2 0 = Some key2 /\
  forall t, 0 <= t ->
    exists byte1 byte2,
      mixing_byte m1 (Py.len key1) (stop_of (Py.len key1)) t
        = Some byte1 /\
      mixing_byte m2 (Py.len key2) (stop_of (Py.len key2)) t
        = Some byte2 /\
      0 <= byte1 < 256 /\ 0 <= byte2 < 256.
Proof.
  intros A1 A2 Hgen.
  destruct (generate_keystreams_returned_shape key1 key2 m1 m2 Hgen)
    as (k1 & k2 & E1 & E2 & S1 & S2).
  rewrite (as_bytes_ascii key1 A1) in E1. apply Some_eq in E1. subst k1.
  rewrite (as_bytes_ascii key2 A2) in E2. apply Some_eq in E2. subst k2.
  split; [apply S1|]. split; [apply S2|].
  intros t Ht.
  destruct (mixer_formula_holds m1 (Py.len key1) (stop_of (Py.len key1)) t
              (shape_mixer_rows _ _ S1) ltac:(apply S1) Ht) as (F1 & _).
  destruct (mixer_formula_holds m2 (Py.len key2) (stop_of (Py.len key2)) t
              (shape_mixer_rows _ _ S2) ltac:(apply S2) Ht) as (F2 & _).
  exists (mixing_sum m1 (Py.len key1) (stop_of (Py.len key1)) t),
         (mixing_sum m2 (Py.len key2) (stop_of (Py.len key2)) t).
  split; [exact F1|]. split; [exact F2|].
  unfold mixing_sum. split; apply Z.mod_pos_bound; lia.
Qed.

(** For keys of 7-bit characters with which the builder returns (those of
    at most 129 characters among them) and any chunk size: the run ends;
    the file then holds the ciphertext of its whole chunks followed by the
    last, partial chunk as it was before the run; the ciphertext of that
    partial chunk is left in the buffer; the checksum is the sum of the
    ciphertext bytes as [char] reads them. *)
Lemma final_state_spec (chunk : Z) (ck : C.char_kind)
  (key1 key2 bytes : list Z) (m1 m2 : matrix) :
  0 < chunk -> is_ascii key1 = true -> is_ascii key2 = true ->
  generate_keystreams key1 key2 = Some (m1, m2) ->
  let w := Z.to_nat (whole_chunks chunk bytes) in
  exists st,
    final_state chunk ck key1 key2 bytes = Some st /\
    count st = Py.len bytes /\
    content (datafile st) =
      map_from (cipher_at ck key1 key2) 0 (firstn w bytes) ++ skipn w bytes /\
    data st =
      map_from (cipher_at ck key1 key2) (whole_chunks chunk bytes)
        (skipn w bytes) /\
    checksum st = sum (map (C.char_read ck) (ciphertext ck key1 key2 bytes)).
Proof.
  intros Hchunk A1 A2 Hgen w.
  destruct (ascii_mixer_total key1 key2 m1 m2 A1 A2 Hgen)
    as (H10 & H20 & Htotal).
  destruct (encrypt_loop_result chunk ck m1 m2
              (Py.len key1) (Py.len key2)
              (stop_of (Py.len key1)) (stop_of (Py.len key2))
              Hchunk Htotal bytes)
    as (st & Hrun & Hcount & Hcontent & Hdata & Hsum).
  assert (Hcipher : forall u d,
    match transform ck m1 m2 (Py.len key1) (Py.len key2)
            (stop_of (Py.len key1)) (stop_of (Py.len key2)) u d with
    | Some c => c
    | None => 0
    end = cipher_at ck key1 key2 u d).
  { intros u d. unfold cipher_at. rewrite Hgen, H10, H20. reflexivity. }
  exists st. split.
  { unfold final_state. rewrite Hgen. simpl Py.bind. rewrite H10, H20.
    exact Hrun. }
  split; [exact Hcount|].
  fold w in Hcontent, Hdata.
  split; [rewrite Hcontent; f_equal; apply map_from_ext; intros; apply Hcipher|].
  split; [rewrite Hdata; apply map_from_ext; intros; apply Hcipher|].
  rewrite Hsum. unfold ciphertext. do 2 f_equal.
  apply map_from_ext. intros. apply Hcipher.
Qed.

(** Keys of 7-bit characters and at most 129 characters: the builder
    returns. *)
Lemma ascii_keys_built (key1 key2 : list Z) :
  is_ascii key1 = true -> is_ascii key2 = true ->
  Py.len key1 <= 129 -> Py.len key2 <= 129 ->
  exists m1 m2, generate_keystreams key1 key2 = Some (m1, m2).
Proof.
  intros A1 A2 B1 B2.
  destruct (generate_keystreams_built key1 key2 key1 key2
              (as_bytes_ascii key1 A1) (as_bytes_ascii key2 A2) B1 B2)
    as (m1 & m2 & Hgen & _).
  exists m1, m2. exact Hgen.
Qed.

Lemma cipher_at_byte (ck : C.char_kind) (key1 key2 : list Z) (t d : Z) :
  is_ascii key1 = true -> is_ascii key2 = true -> 0 <= t ->
  is_byte (cipher_at ck key1 key2 t d).
Proof.
  intros A1 A2 Ht.
  destruct (generate_keystreams key1 key2) as [[m1 m2]|] eqn:Hgen;
    [|unfold cipher_at; rewrite Hgen; unfold is_byte; lia].
  destruct (ascii_mixer_total key1 key2 m1 m2 A1 A2 Hgen)
    as (H10 & H20 & Htotal).
  destruct (Htotal t Ht) as (b1 & b2 & Hb1 & Hb2 & R1 & R2).
  destruct (encrypt_byte_spec ck d b1 b2 R1 R2) as (c & Hc & _ & Hr).
  unfold cipher_at, transform. rewrite Hgen, H10, H20, Hb1, Hb2. simpl.
  rewrite Hc. exact Hr.
Qed.

Lemma map_from_Forall (f : Z -> Z -> Z) (P : Z -> Prop) (l : list Z) :
  forall t, (forall u d, t <= u -> P (f u d)) -> Forall P (map_from f t l).
Proof.
  induction l as [|d l IH]; intros t H; simpl; constructor.
  - apply H. lia.
  - apply IH. intros u e Hu. apply H. lia.
Qed.

Lemma ciphertext_bytes (ck : C.char_kind) (key1 key2 bytes : list Z) :
  is_ascii key1 = true -> is_ascii key2 = true ->
  Forall is_byte (ciphertext ck key1 key2 bytes).
Proof.
  intros A1 A2. apply map_from_Forall.
  intros u d Hu. apply cipher_at_byte; assumption.
Qed.

(** The MAC of a run: the four C remainders of the sum of the ciphertext
    bytes as read through [char]. *)
Lemma mac_of_run (chunk : Z) (ck : C.char_kind) (key1 key2 bytes : list Z)
  (m1 m2 : matrix) :
  0 < chunk -> is_ascii key1 = true -> is_ascii key2 = true ->
  generate_keystreams key1 key2 = Some (m1, m2) ->
  exists file_after,
    nemesis_encrypt_chunked chunk ck key1 key2 bytes =
    Some (file_after,
          mac (sum (map (C.char_read ck) (ciphertext ck key1 key2 bytes)))).
Proof.
  intros Hchunk A1 A2 Hgen.
  destruct (final_state_spec chunk ck key1 key2 bytes m1 m2 Hchunk A1 A2 Hgen)
    as (st & Hrun & _ & _ & _ & Hsum).
  unfold nemesis_encrypt_chunked. rewrite Hrun. simpl. rewrite Hsum.
  eexists. reflexivity.
Qed.

Lemma sum_bytes_nonneg (l : list Z) : Forall is_byte l -> 0 <= sum l.
Proof.
  induction 1 as [|x l Hx _ IH]; simpl; [lia|]. unfold is_byte in Hx. lia.
Qed.

Lemma char_read_unsigned (l : list Z) : map (C.char_read C.UnsignedChar) l = l.
Proof. induction l as [|x l IH]; simpl; [|rewrite IH]; reflexivity. Qed.

(** Where plain [char] is unsigned, the MAC is what the header comment
    describes: the sum of the ciphertext bytes, each in 0..255, reduced
    modulo 233, 239, 241 and 251. *)
Lemma mac_unsigned_char (chunk : Z) (key1 key2 bytes : list Z)
  (m1 m2 : matrix) :
  0 < chunk -> is_ascii key1 = true -> is_ascii key2 = true ->
  generate_keystreams key1 key2 = Some (m1, m2) ->
  let cs := sum (ciphertext C.UnsignedChar key1 key2 bytes) in
  Forall is_byte (ciphertext C.UnsignedChar key1 key2 bytes) /\
  exists file_after,
    nemesis_encrypt_chunked chunk C.UnsignedChar key1 key2 bytes =
    Some (file_after, (cs mod 233, cs mod 239, cs mod 241, cs mod 251)).
Proof.
  intros Hchunk A1 A2 Hgen cs.
  pose proof (ciphertext_bytes C.UnsignedChar key1 key2 bytes A1 A2) as Hb.
  split; [exact Hb|].
  destruct (mac_of_run chunk C.UnsignedChar key1 key2 bytes m1 m2
              Hchunk A1 A2 Hgen) as (file_after & Hrun).
  exists file_after. rewrite Hrun, char_read_unsigned. fold cs.
  pose proof (sum_bytes_nonneg _ Hb) as Hpos. fold cs in Hpos.
  unfold mac. rewrite !Z.rem_mod_nonneg by lia. reflexivity.
Qed.

(** A file shorter than one chunk is not written at all. *)
Lemma short_file_unchanged (ck : C.char_kind) (key1 key2 bytes : list Z)
  (m1 m2 : matrix) :
  is_ascii key1 = true -> is_ascii key2 = true ->
  generate_keystreams key1 key2 = Some (m1, m2) ->
  Py.len bytes < CHUNK ->
  exists m, nemesis_encrypt ck key1 key2 bytes = Some (bytes, m).
Proof.
  intros A1 A2 Hgen Hshort.
  destruct (final_state_spec CHUNK ck key1 key2 bytes m1 m2 eq_refl A1 A2
              Hgen) as (st & Hrun & _ & Hcontent & _).
  unfold nemesis_encrypt, nemesis_encrypt_chunked. rewrite Hrun. simpl.
  rewrite Hcontent. unfold whole_chunks.
  rewrite Z.div_small by (pose proof (len_nonneg bytes); lia).
  rewrite Z.mul_0_r. simpl. eexists. reflexivity.
Qed.

(** In general the bytes after the last whole chunk are left as they
    were. *)
Lemma partial_chunk_unwritten (chunk : Z) (ck : C.char_kind)
  (key1 key2 bytes : list Z) (m1 m2 : matrix) :
  0 < chunk -> is_ascii key1 = true -> is_ascii key2 = true ->
  generate_keystreams key1 key2 = Some (m1, m2) ->
  let w := Z.to_nat (whole_chunks chunk bytes) in
  exists file_after m,
    nemesis_encrypt_chunked chunk ck key1 key2 bytes = Some (file_after, m) /\
    firstn w file_after = firstn w (ciphertext ck key1 key2 bytes) /\
    skipn w file_after = skipn w bytes.
Proof.
  intros Hchunk A1 A2 Hgen w.
  destruct (final_state_spec chunk ck key1 key2 bytes m1 m2 Hchunk A1 A2
              Hgen) as (st & Hrun & _ & Hcontent & _).
  fold w in Hcontent.
  unfold nemesis_encrypt_chunked. rewrite Hrun. simpl.
  eexists. eexists. split; [reflexivity|].
  rewrite Hcontent.
  assert (Hw : (w <= length bytes)%nat).
  { unfold w, whole_chunks. pose proof (len_nonneg bytes) as Hl.
    pose proof (Z.mul_div_le (Py.len bytes) chunk Hchunk).
    assert (0 <= chunk * (Py.len bytes / chunk))
      by (apply Z.mul_nonneg_nonneg; [lia|apply Z.div_pos; lia]).
    unfold Py.len in *. lia. }
  assert (Hlen : length (map_from (cipher_at ck key1 key2) 0 (firstn w bytes))
                 = w)
    by (rewrite map_from_length, length_firstn; lia).
  split.
  - rewrite firstn_exact by exact Hlen.
    unfold ciphertext. rewrite <- (firstn_skipn w bytes) at 2.
    rewrite map_from_app. symmetry. apply firstn_exact. exact Hlen.
  - apply skipn_exact. exact Hlen.
Qed.

(** C2, evaluated.  The one-byte file "A" (size 1, not a multiple of
    1048576) under the keys "abc" and "xyz", which the prompts accept for
    this size: the loop transforms the byte in the buffer (the buffer ends
    as [78]) but the file is never written: it still holds 65 where the
    claim has the transformed value 78. *)
Theorem last_chunk_left_unwritten :
  key_accepted 1 [97; 98; 99] = true /\
  key_accepted 1 [120; 121; 122] = true /\
  ciphertext C.SignedChar [97; 98; 99] [120; 121; 122] [65] = [78] /\
  nemesis_encrypt C.SignedChar [97; 98; 99] [120; 121; 122] [65]
    = Some ([65], (78, 78, 78, 78)) /\
  nemesis_encrypt C.UnsignedChar [97; 98; 99] [120; 121; 122] [65]
    = Some ([65], (78, 78, 78, 78)) /\
  exists st,
    final_state CHUNK C.SignedChar [97; 98; 99] [120; 121; 122] [65]
      = Some st /\
    data st = [78] /\ content (datafile st) = [65].
Proof.
  split; [vm_compute; reflexivity|].
  split; [vm_compute; reflexivity|].
  split; [vm_compute; reflexivity|].
  split; [vm_compute; reflexivity|].
  split; [vm_compute; reflexivity|].
  eexists. split; [vm_compute; reflexivity|]. split; reflexivity.
Qed.

(** C3, evaluated.  The one-byte file "E" under the keys "abc" and "xyz",
    which the prompts accept for this size, has the ciphertext byte 138.
    Where plain [char] is signed the loop adds it to the checksum as -118:
    the checksum goes from 0 down to -118 and the MAC is
    (-118, -118, -118, -118), where the sum of the ciphertext bytes gives
    (138, 138, 138, 138), as the code does where [char] is unsigned. *)
Theorem mac_signed_char_addend :
  key_accepted 1 [97; 98; 99] = true /\
  key_accepted 1 [120; 121; 122] = true /\
  ciphertext C.SignedChar [97; 98; 99] [120; 121; 122] [69] = [138] /\
  C.char_read C.SignedChar 138 = -118 /\
  nemesis_encrypt C.SignedChar [97; 98; 99] [120; 121; 122] [69]
    = Some ([69], (-118, -118, -118, -118)) /\
  nemesis_encrypt C.UnsignedChar [97; 98; 99] [120; 121; 122] [69]
    = Some ([69], (138, 138, 138, 138)).
Proof.
  split; [vm_compute; reflexivity|].
  split; [vm_compute; reflexivity|].
  split; [vm_compute; reflexivity|].
  split; [reflexivity|].
  split; vm_compute; reflexivity.
Qed.

(** ** Keys with multi-byte characters *)

(** For such a key [len(key)], by which [generate_keystreams] sizes the
    matrix, is smaller than [len(keystream[0])], by which the byte loop
    reads it.  The key of two characters U+00E9 has four bytes: its matrix
    has a row 0 of four bytes and one generated row of one byte, and the
    loop, taking L = 4 and stop = 2, raises at position 1, where it asks
    row 1 for index 1 % 3 = 1.  The statements above on the mixer and on
    the whole run are therefore stated for keys of 7-bit characters. *)
Lemma multibyte_key_run :
  generate_keystreams [233; 233] [97; 98]
    = Some ([[195; 169; 195; 169]; [219]], [[97; 98]; [128]]) /\
  mixing_byte [[195; 169; 195; 169]; [219]] 4 2 1 = None /\
  nemesis_encrypt C.SignedChar [233; 233] [97; 98] [65; 66] = None.
Proof. repeat split; vm_compute; reflexivity. Qed.

(** * Further properties of the module *)

(** ** [as_bytes] *)

Lemma utf8_encode_length (c : Z) (b : list Z) :
  utf8_encode c = Some b ->
  1 <= Py.len b <= 4 /\ (Py.len b = 1 <-> 0 <= c < 128).
Proof.
  unfold utf8_encode, Py.len.
  destruct (Z.ltb_spec c 0); [discriminate|].
  destruct (Z.ltb_spec c 128);
    [intros E; apply Some_eq in E; subst; cbn [length]; lia|].
  destruct (Z.ltb_spec c 2048);
    [intros E; apply Some_eq in E; subst; cbn [length]; lia|].
  destruct ((55296 <=? c) && (c <=? 57343)); [discriminate|].
  destruct (Z.ltb_spec c 65536);
    [intros E; apply Some_eq in E; subst; cbn [length]; lia|].
  destruct (Z.ltb_spec c 1114112); [|discriminate].
  intros E; apply Some_eq in E; subst; cbn [length]; lia.
Qed.

Lemma is_ascii_cons (c : Z) (x : list Z) :
  is_ascii (c :: x) = true <-> 0 <= c < 128 /\ is_ascii x = true.
Proof.
  unfold is_ascii. simpl. rewrite !andb_true_iff, Z.leb_le, Z.ltb_lt. tauto.
Qed.

(** X1. For every string that [as_bytes] encodes: the bytes are in 0..255,
    there are between len(x) and 4 * len(x) of them, and there are exactly
    len(x) if and only if every character is below 128, in which case the
    byte sequence is the string itself. *)
Theorem as_bytes_length (x b : list Z) :
  as_bytes x = Some b ->
  Forall is_byte b /\
  Py.len x <= Py.len b <= 4 * Py.len x /\
  (Py.len b = Py.len x <-> is_ascii x = true) /\
  (is_ascii x = true -> b = x).
Proof.
  revert b. induction x as [|c x IH]; intros b E.
  - simpl in E. apply Some_eq in E. subst b.
    split; [constructor|]. split; [unfold Py.len; simpl; lia|].
    split; [split; reflexivity|reflexivity].
  - pose proof (as_bytes_bytes (c :: x) b E) as [Hb _].
    simpl in E.
    destruct (utf8_encode c) as [bc|] eqn:Ec; [|discriminate].
    destruct (as_bytes x) as [bs|] eqn:Ex; [|discriminate].
    simpl in E. apply Some_eq in E. subst b.
    destruct (utf8_encode_length c bc Ec) as [Hl Hone].
    destruct (IH bs eq_refl) as (_ & Hlen & Hiff & _).
    assert (Hcons : Py.len (c :: x) = 1 + Py.len x)
      by (unfold Py.len; simpl length; lia).
    rewrite len_app, Hcons, is_ascii_cons.
    split; [exact Hb|]. split; [lia|]. split.
    + split.
      * intros Heq. assert (Py.len bc = 1) by lia.
        assert (Py.len bs = Py.len x) by lia. tauto.
      * intros [Hc Hx]. apply Hiff in Hx. apply Hone in Hc. lia.
    + intros Ha.
      pose proof (as_bytes_ascii (c :: x) (proj2 (is_ascii_cons c x) Ha))
        as E'.
      simpl in E'. rewrite Ec, Ex in E'. simpl in E'.
      apply Some_eq in E'. exact E'.
Qed.

Lemma as_bytes_length_witness :
  Forall is_byte [97; 195; 169] /\
  Py.len [97; 233] <= Py.len [97; 195; 169] <= 4 * Py.len [97; 233] /\
  (Py.len [97; 195; 169] = Py.len [97; 233] <-> is_ascii [97; 233] = true) /\
  (is_ascii [97; 233] = true -> [97; 195; 169] = [97; 233]).
Proof.
  apply (as_bytes_length [97; 233] [97; 195; 169]). reflexivity.
Defined.

(** ** [generate_keystreams]: failure and symmetry *)

(** X2. For keys of at most 129 characters each, [generate_keystreams]
    fails only when [as_bytes] fails on one of the keys: for all other
    such keys, the empty key included, no index leaves its row, no
    remainder is taken by zero and the accumulator stays within [int]. *)
Theorem generate_keystreams_fails_iff (key1 key2 : list Z) :
  Py.len key1 <= 129 -> Py.len key2 <= 129 ->
  (generate_keystreams key1 key2 = None <->
   as_bytes key1 = None \/ as_bytes key2 = None).
Proof.
  intros B1 B2. split.
  - intros Hnone.
    destruct (as_bytes key1) as [k1|] eqn:E1; [|left; reflexivity].
    destruct (as_bytes key2) as [k2|] eqn:E2; [|right; reflexivity].
    destruct (generate_keystreams_shape key1 key2 k1 k2 E1 E2 B1 B2)
      as (m1 & m2 & Hgen & _).
    congruence.
  - unfold generate_keystreams. intros [E|E].
    + rewrite E. reflexivity.
    + rewrite E. destruct (as_bytes key1); reflexivity.
Qed.

Lemma generate_keystreams_fails_iff_witness :
  generate_keystreams [97; 98] [55296] = None <->
  as_bytes [97; 98] = None \/ as_bytes [55296] = None.
Proof.
  apply (generate_keystreams_fails_iff [97; 98] [55296]);
    vm_compute; discriminate.
Defined.

(** The builder reads the other key's matrix through its row 0 only. *)
Lemma mix_step_other (own other other' : matrix) (L L' j aux k : Z) :
  Py.getitem other' 0 = Py.getitem other 0 ->
  mix_step own other' L L' j aux k = mix_step own other L L' j aux k.
Proof. intros H. unfold mix_step, getitem2. rewrite H. reflexivity. Qed.

Lemma row_loop_other (other other' : matrix) (L L' i : Z) (n : nat) :
  Py.getitem other' 0 = Py.getitem other 0 ->
  forall own j row,
    row_loop n own other' L L' i j row = row_loop n own other L L' i j row.
Proof.
  intros H. induction n as [|n IH]; intros own j row; simpl; [reflexivity|].
  assert (E : row_element own other' L L' i j = row_element own other L L' i j).
  { unfold row_element, row_accumulator.
    destruct (getitem2 own (-2) j) as [a1|]; [|reflexivity].
    destruct (getitem2 own (-2) (L - i)) as [a2|]; [|reflexivity].
    cbn [Py.bind].
    destruct (C.int_of_py (a1 * a2)) as [aux0|]; [|reflexivity].
    cbn [Py.bind].
    destruct (getitem2 own (-2) (j + 1)) as [b1|]; [|reflexivity].
    destruct (getitem2 own (-2) (Z.min 0 (j - 1))) as [b2|]; [|reflexivity].
    cbn [Py.bind].
    destruct (C.int_of_py (aux0 + b1 * b2)) as [aux1|]; [|reflexivity].
    cbn [Py.bind].
    rewrite (for_each_ext _ (mix_step own other' L L' j)
               (mix_step own other L L' j))
      by (intros; apply mix_step_other; exact H).
    reflexivity. }
  rewrite E. destruct (row_element own other L L' i j) as [e|];
    [|reflexivity].
  apply IH.
Qed.

Lemma build_keystream_other (other other' : matrix) (L L' stop : Z)
  (keystream : matrix) :
  Py.getitem other' 0 = Py.getitem other 0 ->
  build_keystream other' L L' stop keystream
  = build_keystream other L L' stop keystream.
Proof.
  intros H. unfold build_keystream. apply for_each_ext.
  intros ks i _. unfold add_row.
  rewrite (row_loop_other other other' L L' i _ H). reflexivity.
Qed.

(** X3. Exchanging the two keys exchanges the two matrices: the matrix of
    a key depends on the other key only, not on which of the two is built
    first. *)
Theorem generate_keystreams_swap (key1 key2 : list Z) (m1 m2 : matrix) :
  generate_keystreams key1 key2 = Some (m1, m2) ->
  generate_keystreams key2 key1 = Some (m2, m1).
Proof.
  intros Hgen.
  destruct (generate_keystreams_returned key1 key2 m1 m2 Hgen)
    as (k1 & k2 & E1 & E2 & (_ & H10 & _) & (_ & H20 & _)).
  unfold generate_keystreams in Hgen |- *. rewrite E1, E2 in *.
  simpl Py.bind in *.
  destruct (build_keystream [k2] (Py.len key1) (Py.len key2)
              (Py.ceil_half (Py.len key1)) [k1]) as [b1|] eqn:B1;
    [|discriminate].
  simpl Py.bind in Hgen.
  destruct (build_keystream b1 (Py.len key2) (Py.len key1)
              (Py.ceil_half (Py.len key2)) [k2]) as [b2|] eqn:B2;
    [|discriminate].
  simpl in Hgen. injection Hgen as -> ->.
  rewrite (build_keystream_other m1 [k1]) by (rewrite H10; reflexivity).
  rewrite B2. simpl Py.bind.
  rewrite (build_keystream_other [k2] m2) by (rewrite H20; reflexivity).
  rewrite B1. reflexivity.
Qed.

Lemma generate_keystreams_swap_witness :
  generate_keystreams [120; 121; 122] [97; 98; 99]
  = Some ([[120; 121; 122]; [134; 50]; [156]], [[97; 98; 99]; [51; 101]; [15]]).
Proof.
  apply (generate_keystreams_swap [97; 98; 99] [120; 121; 122]).
  vm_compute. reflexivity.
Defined.

(** ** The period of the mixing bytes *)

Lemma period_factor (L : Z) (ks : list Z) (i : Z) :
  In i ks -> (forall k, In k ks -> 0 < L - k) ->
  exists c, fold_right Z.mul 1 (map (fun k => L - k) ks) = c * (L - i) /\
            0 <= c.
Proof.
  induction ks as [|k ks IH]; intros Hin Hpos; [contradiction|].
  simpl. assert (Hprod : 0 < fold_right Z.mul 1 (map (fun k => L - k) ks)).
  { clear IH Hin. induction ks as [|k' ks IH]; simpl; [lia|].
    apply Z.mul_pos_pos.
    - apply Hpos. right. left. reflexivity.
    - apply IH. intros k0 [->|H0]; apply Hpos;
        [left; reflexivity|right; right; exact H0]. }
  destruct Hin as [->|Hin].
  - exists (fold_right Z.mul 1 (map (fun k => L - k) ks)).
    split; [ring|lia].
  - destruct (IH Hin (fun k0 H0 => Hpos k0 (or_intror H0))) as (c & -> & Hc).
    exists ((L - k) * c). split; [ring|].
    apply Z.mul_nonneg_nonneg; [|exact Hc].
    pose proof (Hpos k (or_introl eq_refl)). lia.
Qed.

Lemma stop_rows_positive (L i : Z) :
  0 <= i < stop_of L -> 0 < L - i.
Proof. unfold stop_of. intros H. Z.quot_rem_to_equations. lia. Qed.

Lemma mixing_byte_shift (m : matrix) (L t s : Z) :
  0 <= t -> 0 <= s ->
  (forall i, 0 <= i < stop_of L -> exists c, s = c * (L - i)) ->
  mixing_byte m L (stop_of L) (t + s)
  = mixing_byte m L (stop_of L) t.
Proof.
  intros Ht Hs Hdiv. unfold mixing_byte.
  rewrite (for_each_ext _ (mix_row m L (t + s)) (mix_row m L t));
    [reflexivity|].
  intros byte i Hin. apply in_range2 in Hin.
  destruct (Hdiv i ltac:(lia)) as (c & ->).
  pose proof (stop_rows_positive L i ltac:(lia)) as Hpos.
  unfold mix_row, C.rem.
  destruct (Z.eqb_spec (L - i) 0); [reflexivity|].
  rewrite Z.rem_add by (try lia; apply Z.mul_nonneg_nonneg; lia).
  reflexivity.
Qed.

Lemma period_multiple (L q i : Z) :
  0 <= q -> 0 <= i < stop_of L ->
  exists c, q * period L (stop_of L) = c * (L - i) /\
            0 <= q * period L (stop_of L).
Proof.
  intros Hq Hi. unfold period.
  destruct (period_factor L (Py.range (stop_of L)) i) as (c & -> & Hc).
  - apply in_range2. lia.
  - intros k Hk. apply in_range2 in Hk.
    apply stop_rows_positive. lia.
  - exists (q * c). split; [ring|].
    pose proof (stop_rows_positive L i Hi).
    apply Z.mul_nonneg_nonneg; [lia|apply Z.mul_nonneg_nonneg; lia].
Qed.

(** X4. The pair of mixing bytes, and with it the transform of a byte,
    repeats along the file: with stop = L / 2 truncated, as the loop takes
    it, and P1 and P2 the products of the lengths of the rows 0..stop-1
    that the mixer reads in each matrix, position t + q * P1 * P2
    transforms a byte exactly as position t does, for all matrices, L1 and
    L2. *)
Theorem keystream_period (ck : C.char_kind) (m1 m2 : matrix)
  (L1 L2 t q d : Z) :
  0 <= t -> 0 <= q ->
  transform ck m1 m2 L1 L2 (stop_of L1) (stop_of L2)
    (t + q * (period L1 (stop_of L1) * period L2 (stop_of L2))) d
  = transform ck m1 m2 L1 L2 (stop_of L1) (stop_of L2) t d.
Proof.
  intros Ht Hq. unfold transform.
  set (P1 := period L1 (stop_of L1)).
  set (P2 := period L2 (stop_of L2)).
  assert (H1 : 0 <= P1).
  { destruct (Z.le_gt_cases (stop_of L1) 0) as [Hle|Hgt].
    - unfold P1, period, Py.range, Py.range2.
      replace (Z.to_nat (stop_of L1 - 0)) with 0%nat by lia.
      simpl. lia.
    - destruct (period_multiple L1 1 0 ltac:(lia) ltac:(lia)) as (_ & _ & H).
      fold P1 in H. lia. }
  assert (H2 : 0 <= P2).
  { destruct (Z.le_gt_cases (stop_of L2) 0) as [Hle|Hgt].
    - unfold P2, period, Py.range, Py.range2.
      replace (Z.to_nat (stop_of L2 - 0)) with 0%nat by lia.
      simpl. lia.
    - destruct (period_multiple L2 1 0 ltac:(lia) ltac:(lia)) as (_ & _ & H).
      fold P2 in H. lia. }
  assert (Hs : 0 <= q * (P1 * P2))
    by (apply Z.mul_nonneg_nonneg; [lia|apply Z.mul_nonneg_nonneg; lia]).
  rewrite (mixing_byte_shift m1 L1 t (q * (P1 * P2)) Ht Hs).
  - rewrite (mixing_byte_shift m2 L2 t (q * (P1 * P2)) Ht Hs);
      [reflexivity|].
    intros i Hi.
    destruct (period_multiple L2 (q * P1) i
                ltac:(apply Z.mul_nonneg_nonneg; lia) Hi) as (c & Hc & _).
    fold P2 in Hc. exists c. rewrite <- Hc. ring.
  - intros i Hi.
    destruct (period_multiple L1 (q * P2) i
                ltac:(apply Z.mul_nonneg_nonneg; lia) Hi) as (c & Hc & _).
    fold P1 in Hc. exists c. rewrite <- Hc. ring.
Qed.

Lemma keystream_period_witness :
  transform C.SignedChar
    [[97; 98; 99]; [51; 101]; [15]] [[120; 121; 122]; [134; 50]; [156]]
    3 3 (stop_of 3) (stop_of 3)
    (1 + 2 * (period 3 (stop_of 3) * period 3 (stop_of 3))) 66
  = transform C.SignedChar
    [[97; 98; 99]; [51; 101]; [15]] [[120; 121; 122]; [134; 50]; [156]]
    3 3 (stop_of 3) (stop_of 3) 1 66.
Proof.
  apply (keystream_period C.SignedChar
           [[97; 98; 99]; [51; 101]; [15]]
           [[120; 121; 122]; [134; 50]; [156]] 3 3 1 2 66); lia.
Defined.

(** ** The transform of one byte as a map on bytes *)

Lemma encrypt_byte_injective (ck : C.char_kind) (d d' byte1 byte2 : Z) :
  0 <= byte1 < 256 -> 0 <= byte2 < 256 ->
  0 <= d < 256 -> 0 <= d' < 256 ->
  RK.encrypt_byte ck d byte1 byte2 = RK.encrypt_byte ck d' byte1 byte2 ->
  d = d'.
Proof.
  intros H1 H2 Hd Hd' E.
  destruct (encrypt_byte_spec ck d byte1 byte2 H1 H2) as (c & Hc & Hs & _).
  destruct (encrypt_byte_spec ck d' byte1 byte2 H1 H2) as (c' & Hc' & Hs' & _).
  assert (c = c') by congruence. subst c'.
  pose proof (spec_decrypt_inverts d byte1 byte2 c Hd H1 H2 Hs) as D.
  pose proof (spec_decrypt_inverts d' byte1 byte2 c Hd' H1 H2 Hs') as D'.
  congruence.
Qed.

Lemma encrypt_byte_sign (d byte1 byte2 : Z) :
  RK.encrypt_byte C.SignedChar d byte1 byte2
  = RK.encrypt_byte C.UnsignedChar d byte1 byte2.
Proof.
  unfold RK.encrypt_byte, RK.encrypt_int.
  destruct (C.index _ODD (RK.rk_index byte1 byte2)) as [o1|]; [|reflexivity].
  destruct (C.index _ODD (127 - RK.rk_index byte1 byte2)) as [o2|];
    [|reflexivity].
  simpl. f_equal. unfold C.char_store. rewrite !rem_then_mod.
  change (cong256 ((o1 * C.char_read C.SignedChar d + byte1 - byte2) * o2)
                  ((o1 * C.char_read C.UnsignedChar d + byte1 - byte2) * o2)).
  rewrite !char_read_cong. reflexivity.
Qed.

(** X5. For mixing bytes in 0..255 the transform of one byte is
    one-to-one on 0..255 (hence a permutation of the byte values), and the
    byte it stores is the same whether plain [char] is signed or not. *)
Theorem encrypt_byte_permutes (ck : C.char_kind) (d d' byte1 byte2 : Z) :
  0 <= byte1 < 256 -> 0 <= byte2 < 256 ->
  0 <= d < 256 -> 0 <= d' < 256 ->
  (exists c, RK.encrypt_byte ck d byte1 byte2 = Some c /\ 0 <= c < 256) /\
  (RK.encrypt_byte ck d byte1 byte2 = RK.encrypt_byte ck d' byte1 byte2 ->
   d = d') /\
  RK.encrypt_byte C.SignedChar d byte1 byte2
  = RK.encrypt_byte C.UnsignedChar d byte1 byte2.
Proof.
  intros H1 H2 Hd Hd'. split; [|split].
  - destruct (encrypt_byte_spec ck d byte1 byte2 H1 H2) as (c & Hc & _ & Hr).
    exists c. split; assumption.
  - apply encrypt_byte_injective; assumption.
  - apply encrypt_byte_sign.
Qed.

Lemma encrypt_byte_permutes_witness :
  (exists c, RK.encrypt_byte C.SignedChar 200 148 254 = Some c /\
             0 <= c < 256) /\
  (RK.encrypt_byte C.SignedChar 200 148 254
   = RK.encrypt_byte C.SignedChar 66 148 254 -> 200 = 66) /\
  RK.encrypt_byte C.SignedChar 200 148 254
  = RK.encrypt_byte C.UnsignedChar 200 148 254.
Proof.
  apply (encrypt_byte_permutes C.SignedChar 200 66 148 254); lia.
Defined.

(** ** The ciphertext as a function of the file *)

Lemma cipher_at_sign (key1 key2 : list Z) (t d : Z) :
  cipher_at C.SignedChar key1 key2 t d
  = cipher_at C.UnsignedChar key1 key2 t d.
Proof.
  unfold cipher_at, transform.
  destruct (generate_keystreams key1 key2) as [[m1 m2]|]; [|reflexivity].
  destruct (Py.getitem m1 0) as [r1|]; [|reflexivity].
  destruct (Py.getitem m2 0) as [r2|]; [|reflexivity].
  destruct (mixing_byte m1 _ _ t) as [b1|]; [|reflexivity].
  destruct (mixing_byte m2 _ _ t) as [b2|]; [|reflexivity].
  simpl. rewrite encrypt_byte_sign. reflexivity.
Qed.

Lemma cipher_at_injective (ck : C.char_kind) (key1 key2 : list Z)
  (m1 m2 : matrix) (t d d' : Z) :
  is_ascii key1 = true -> is_ascii key2 = true ->
  generate_keystreams key1 key2 = Some (m1, m2) -> 0 <= t ->
  is_byte d -> is_byte d' ->
  cipher_at ck key1 key2 t d = cipher_at ck key1 key2 t d' -> d = d'.
Proof.
  intros A1 A2 Hgen Ht Hd Hd'.
  destruct (ascii_mixer_total key1 key2 m1 m2 A1 A2 Hgen)
    as (H10 & H20 & Htotal).
  destruct (Htotal t Ht) as (b1 & b2 & Hb1 & Hb2 & R1 & R2).
  destruct (encrypt_byte_spec ck d b1 b2 R1 R2) as (c & Hc & _).
  destruct (encrypt_byte_spec ck d' b1 b2 R1 R2) as (c' & Hc' & _).
  unfold cipher_at, transform. rewrite Hgen, H10, H20, Hb1, Hb2. simpl.
  rewrite Hc, Hc'. intros <-.
  apply (encrypt_byte_injective ck d d' b1 b2 R1 R2 Hd Hd').
  rewrite Hc, Hc'. reflexivity.
Qed.

Lemma map_from_injective (f : Z -> Z -> Z) (P : Z -> Prop) (l : list Z) :
  forall t l',
    (forall u d d', t <= u -> P d -> P d' -> f u d = f u d' -> d = d') ->
    Forall P l -> Forall P l' ->
    map_from f t l = map_from f t l' -> l = l'.
Proof.
  induction l as [|d l IH]; intros t [|d' l'] Hinj Hl Hl' E;
    simpl in E; try discriminate; [reflexivity|].
  injection E as E1 E2.
  apply Forall_cons_iff in Hl, Hl'.
  destruct Hl as [Hd Hl], Hl' as [Hd' Hl'].
  f_equal.
  - apply (Hinj t); [lia|assumption..].
  - apply (IH (t + 1)); try assumption.
    intros u e e' Hu. apply Hinj. lia.
Qed.

(** X6. Under keys of 7-bit characters, of at most 129 characters each,
    the ciphertext has the length of the file, and two files of bytes with
    the same ciphertext are the same file: encryption loses no
    information.  The ciphertext does not depend on the signedness of
    plain [char]. *)
Theorem ciphertext_injective (ck : C.char_kind)
  (key1 key2 bytes bytes' : list Z) :
  is_ascii key1 = true -> is_ascii key2 = true ->
  Py.len key1 <= 129 -> Py.len key2 <= 129 ->
  Forall is_byte bytes -> Forall is_byte bytes' ->
  Py.len (ciphertext ck key1 key2 bytes) = Py.len bytes /\
  (ciphertext ck key1 key2 bytes = ciphertext ck key1 key2 bytes' ->
   bytes = bytes') /\
  ciphertext C.SignedChar key1 key2 bytes
  = ciphertext C.UnsignedChar key1 key2 bytes.
Proof.
  intros A1 A2 B1 B2 Hb Hb'.
  destruct (ascii_keys_built key1 key2 A1 A2 B1 B2) as (m1 & m2 & Hgen).
  split; [apply map_from_len|]. split.
  - apply (map_from_injective _ is_byte); try assumption.
    intros u d d' Hu.
    apply (cipher_at_injective ck key1 key2 m1 m2); assumption.
  - apply map_from_ext. intros. apply cipher_at_sign.
Qed.

Lemma ciphertext_injective_witness :
  Py.len (ciphertext C.SignedChar [97; 98; 99] [120; 121; 122] [65; 66])
  = Py.len [65; 66] /\
  (ciphertext C.SignedChar [97; 98; 99] [120; 121; 122] [65; 66]
   = ciphertext C.SignedChar [97; 98; 99] [120; 121; 122] [65; 200] ->
   [65; 66] = [65; 200]) /\
  ciphertext C.SignedChar [97; 98; 99] [120; 121; 122] [65; 66]
  = ciphertext C.UnsignedChar [97; 98; 99] [120; 121; 122] [65; 66].
Proof.
  apply (ciphertext_injective C.SignedChar [97; 98; 99] [120; 121; 122]
           [65; 66] [65; 200]);
    [reflexivity|reflexivity|vm_compute; discriminate
    |vm_compute; discriminate| |];
    repeat apply Forall_cons; try apply Forall_nil; unfold is_byte; lia.
Defined.

(** ** The file and the MAC after a run *)

Lemma whole_chunks_range (chunk : Z) (bytes : list Z) :
  0 < chunk ->
  0 <= whole_chunks chunk bytes <= Py.len bytes /\
  (Py.len bytes mod chunk = 0 -> whole_chunks chunk bytes = Py.len bytes).
Proof.
  intros Hchunk. unfold whole_chunks.
  pose proof (len_nonneg bytes) as Hl.
  pose proof (Z.mul_div_le (Py.len bytes) chunk Hchunk).
  assert (0 <= chunk * (Py.len bytes / chunk))
    by (apply Z.mul_nonneg_nonneg; [lia|apply Z.div_pos; lia]).
  split; [lia|].
  intros Hmod. pose proof (Z.div_mod (Py.len bytes) chunk ltac:(lia)). lia.
Qed.

(** X7. For keys of 7-bit characters, of at most 129 characters each, and
    any chunk size the run ends and leaves a file of the same length: the ciphertext of the whole chunks
    followed by the remaining bytes as they were.  A file whose size is a
    multiple of the chunk size (the empty file among them) is replaced by
    its whole ciphertext. *)
Theorem run_file_contents (chunk : Z) (ck : C.char_kind)
  (key1 key2 bytes : list Z) :
  0 < chunk -> is_ascii key1 = true -> is_ascii key2 = true ->
  Py.len key1 <= 129 -> Py.len key2 <= 129 ->
  let w := Z.to_nat (whole_chunks chunk bytes) in
  exists file_after m,
    nemesis_encrypt_chunked chunk ck key1 key2 bytes = Some (file_after, m) /\
    file_after = firstn w (ciphertext ck key1 key2 bytes) ++ skipn w bytes /\
    Py.len file_after = Py.len bytes /\
    (Py.len bytes mod chunk = 0 ->
     file_after = ciphertext ck key1 key2 bytes).
Proof.
  intros Hchunk A1 A2 B1 B2 w.
  destruct (ascii_keys_built key1 key2 A1 A2 B1 B2) as (m1 & m2 & Hgen).
  destruct (final_state_spec chunk ck key1 key2 bytes m1 m2 Hchunk A1 A2
              Hgen) as (st & Hrun & _ & Hcontent & _).
  fold w in Hcontent.
  destruct (whole_chunks_range chunk bytes Hchunk) as (Hw & Hall).
  assert (Hlen : length (map_from (cipher_at ck key1 key2) 0 (firstn w bytes))
                 = w).
  { rewrite map_from_length, length_firstn. unfold w, Py.len in *. lia. }
  assert (Hpre : firstn w (ciphertext ck key1 key2 bytes)
                 = map_from (cipher_at ck key1 key2) 0 (firstn w bytes)).
  { unfold ciphertext. rewrite <- (firstn_skipn w bytes) at 1.
    rewrite map_from_app. apply firstn_exact. exact Hlen. }
  unfold nemesis_encrypt_chunked. rewrite Hrun. simpl.
  exists (content (datafile st)), (mac (checksum st)).
  split; [reflexivity|]. rewrite Hcontent, Hpre.
  split; [reflexivity|]. split.
  - unfold Py.len. rewrite length_app, map_from_length.
    rewrite <- length_app, firstn_skipn. reflexivity.
  - intros Hmod. specialize (Hall Hmod).
    assert (Hwl : w = length bytes) by (unfold w, Py.len in *; lia).
    rewrite Hwl, firstn_all, skipn_all. apply app_nil_r.
Qed.

Lemma run_file_contents_witness :
  let w := Z.to_nat (whole_chunks 2 [65; 66; 67; 68; 69]) in
  exists file_after m,
    nemesis_encrypt_chunked 2 C.SignedChar [97; 98; 99] [120; 121; 122]
      [65; 66; 67; 68; 69] = Some (file_after, m) /\
    file_after
    = firstn w (ciphertext C.SignedChar [97; 98; 99] [120; 121; 122]
                  [65; 66; 67; 68; 69]) ++ skipn w [65; 66; 67; 68; 69] /\
    Py.len file_after = Py.len [65; 66; 67; 68; 69] /\
    (Py.len [65; 66; 67; 68; 69] mod 2 = 0 ->
     file_after = ciphertext C.SignedChar [97; 98; 99] [120; 121; 122]
                    [65; 66; 67; 68; 69]).
Proof.
  apply (run_file_contents 2 C.SignedChar [97; 98; 99] [120; 121; 122]
           [65; 66; 67; 68; 69]);
    [lia|reflexivity|reflexivity|vm_compute; discriminate
    |vm_compute; discriminate].
Defined.

Lemma rem_bound (a m : Z) : 0 < m -> - m < Z.rem a m < m.
Proof.
  intros Hm. pose proof (Z.rem_bound_abs a m ltac:(lia)). lia.
Qed.

(** X8. For keys of 7-bit characters, of at most 129 characters each: the
    MAC of a run is taken over the ciphertext of the whole file,
    the bytes of the last chunk included, and so is the same for every
    chunk size; each of its four numbers is smaller in absolute value than
    its modulus, and none is negative where plain [char] is unsigned. *)
Theorem run_mac (chunk chunk' : Z) (ck : C.char_kind)
  (key1 key2 bytes : list Z) :
  0 < chunk -> 0 < chunk' ->
  is_ascii key1 = true -> is_ascii key2 = true ->
  Py.len key1 <= 129 -> Py.len key2 <= 129 ->
  exists f f' a b c d,
    nemesis_encrypt_chunked chunk ck key1 key2 bytes
      = Some (f, (a, b, c, d)) /\
    nemesis_encrypt_chunked chunk' ck key1 key2 bytes
      = Some (f', (a, b, c, d)) /\
    (a, b, c, d)
      = mac (sum (map (C.char_read ck) (ciphertext ck key1 key2 bytes))) /\
    - 233 < a < 233 /\ - 239 < b < 239 /\ - 241 < c < 241 /\
    - 251 < d < 251 /\
    (ck = C.UnsignedChar -> 0 <= a /\ 0 <= b /\ 0 <= c /\ 0 <= d).
Proof.
  intros Hchunk Hchunk' A1 A2 B1 B2.
  destruct (ascii_keys_built key1 key2 A1 A2 B1 B2) as (m1 & m2 & Hgen).
  destruct (mac_of_run chunk ck key1 key2 bytes m1 m2 Hchunk A1 A2 Hgen)
    as (f & Hf).
  destruct (mac_of_run chunk' ck key1 key2 bytes m1 m2 Hchunk' A1 A2 Hgen)
    as (f' & Hf').
  set (cs := sum (map (C.char_read ck) (ciphertext ck key1 key2 bytes))) in *.
  exists f, f', (Z.rem cs 233), (Z.rem cs 239), (Z.rem cs 241), (Z.rem cs 251).
  split; [exact Hf|]. split; [exact Hf'|]. split; [reflexivity|].
  split; [apply (rem_bound cs 233); lia|].
  split; [apply (rem_bound cs 239); lia|].
  split; [apply (rem_bound cs 241); lia|].
  split; [apply (rem_bound cs 251); lia|].
  intros ->. unfold cs. rewrite char_read_unsigned.
  pose proof (sum_bytes_nonneg _
                (ciphertext_bytes C.UnsignedChar key1 key2 bytes A1 A2)).
  repeat split; apply Z.rem_nonneg; lia.
Qed.

Lemma run_mac_witness :
  exists f f' a b c d,
    nemesis_encrypt_chunked 2 C.UnsignedChar [97; 98; 99] [120; 121; 122]
      [65; 66; 67] = Some (f, (a, b, c, d)) /\
    nemesis_encrypt_chunked CHUNK C.UnsignedChar [97; 98; 99] [120; 121; 122]
      [65; 66; 67] = Some (f', (a, b, c, d)) /\
    (a, b, c, d)
      = mac (sum (map (C.char_read C.UnsignedChar)
                    (ciphertext C.UnsignedChar [97; 98; 99] [120; 121; 122]
                       [65; 66; 67]))) /\
    - 233 < a < 233 /\ - 239 < b < 239 /\ - 241 < c < 241 /\
    - 251 < d < 251 /\
    (C.UnsignedChar = C.UnsignedChar -> 0 <= a /\ 0 <= b /\ 0 <= c /\ 0 <= d).
Proof.
  apply (run_mac 2 CHUNK C.UnsignedChar [97; 98; 99] [120; 121; 122]
           [65; 66; 67]);
    [lia|reflexivity|reflexivity|reflexivity|vm_compute; discriminate
    |vm_compute; discriminate].
Defined.

(** ** [necessary_length] on the range of [int] *)

Lemma digits2_iter (k p : positive) :
  digits2_pos (Pos.iter xO p k) = (digits2_pos p + k)%positive.
Proof.
  induction k as [|k IH] using Pos.peano_ind.
  - simpl. rewrite Pos.add_1_r. reflexivity.
  - rewrite Pos.iter_succ. simpl. rewrite IH, Pos.add_succ_r. reflexivity.
Qed.

Lemma iter_xO_value (k p : positive) :
  Z.pos (Pos.iter xO p k) = Z.pos p * 2 ^ Z.pos k.
Proof.
  induction k as [|k IH] using Pos.peano_ind.
  - simpl. lia.
  - rewrite Pos.iter_succ, Pos2Z.inj_succ, Z.pow_succ_r by lia.
    change (Z.pos (Pos.iter xO p k)~0) with (2 * Z.pos (Pos.iter xO p k)).
    rewrite IH.
    ring.
Qed.

Lemma digits2_bounds (p : positive) :
  2 ^ (Z.pos (digits2_pos p) - 1) <= Z.pos p < 2 ^ Z.pos (digits2_pos p).
Proof.
  induction p as [p IH|p IH|]; simpl digits2_pos.
  - rewrite Pos2Z.inj_succ. change (Z.pos p~1) with (2 * Z.pos p + 1).
    replace (Z.succ (Z.pos (digits2_pos p)) - 1)
      with (Z.succ (Z.pos (digits2_pos p) - 1)) by lia.
    rewrite !Z.pow_succ_r by lia.
    replace (2 ^ Z.pos (digits2_pos p))
      with (2 * 2 ^ (Z.pos (digits2_pos p) - 1)) in *
      by (rewrite <- Z.pow_succ_r by lia; f_equal; lia).
    lia.
  - rewrite Pos2Z.inj_succ. change (Z.pos p~0) with (2 * Z.pos p).
    replace (Z.succ (Z.pos (digits2_pos p)) - 1)
      with (Z.succ (Z.pos (digits2_pos p) - 1)) by lia.
    rewrite !Z.pow_succ_r by lia.
    replace (2 ^ Z.pos (digits2_pos p))
      with (2 * 2 ^ (Z.pos (digits2_pos p) - 1)) in *
      by (rewrite <- Z.pow_succ_r by lia; f_equal; lia).
    lia.
  - simpl. lia.
Qed.

Lemma binary_round_aux_canonical (m : positive) (e : Z) :
  Z.pos (digits2_pos m) = 53 -> -1074 <= e <= 971 ->
  binary_round_aux Double.prec Double.emax false (Z.pos m) e loc_Exact
  = S754_finite false m e.
Proof.
  intros Hd He.
  assert (Hs : shr_fexp Double.prec Double.emax (Z.pos m) e loc_Exact
               = ({| shr_m := Z.pos m; shr_r := false; shr_s := false |}, e)).
  { unfold shr_fexp, fexp, emin, Zdigits2, Double.prec, Double.emax.
    rewrite Hd.
    replace (Z.max (53 + e - 53) (3 - 1024 - 53) - e) with 0 by lia.
    reflexivity. }
  unfold binary_round_aux. rewrite Hs.
  cbn [shr_m loc_of_shr_record shr_r shr_s round_nearest_even].
  rewrite Hs. cbn [shr_m].
  replace (e <=? Double.emax - Double.prec) with true; [reflexivity|].
  symmetry. apply Z.leb_le. unfold Double.emax, Double.prec. lia.
Qed.

Lemma of_int_pos (p : positive) :
  Z.pos p < 2 ^ 53 ->
  exists m e,
    Double.of_int (Z.pos p) = S754_finite false m e /\
    Z.pos (digits2_pos m) = 53 /\
    e = Z.pos (digits2_pos p) - 53 /\ e <= 0 /\
    Z.pos m = Z.pos p * 2 ^ (- e).
Proof.
  intros Hp. pose proof (digits2_bounds p) as Hb.
  assert (Hd : Z.pos (digits2_pos p) <= 53).
  { destruct (Z.le_gt_cases (Z.pos (digits2_pos p)) 53) as [H|H]; [exact H|].
    assert (2 ^ 53 <= 2 ^ (Z.pos (digits2_pos p) - 1))
      by (apply Z.pow_le_mono_r; lia).
    lia. }
  unfold Double.of_int, binary_normalize, binary_round, shl_align.
  unfold fexp, emin, Double.prec, Double.emax.
  replace (Z.max (Z.pos (digits2_pos p) + 0 - 53) (3 - 1024 - 53) - 0)
    with (Z.pos (digits2_pos p) - 53) by lia.
  destruct (Z.pos (digits2_pos p) - 53) as [|k|k] eqn:Ek; try lia.
  - exists p, 0. split.
    + replace (Z.max (Z.pos (digits2_pos p) + 0 - 53) (3 - 1024 - 53))
        with 0 by lia.
      apply binary_round_aux_canonical; lia.
    + split; [lia|]. split; [reflexivity|]. split; [lia|]. simpl. lia.
  - exists (Pos.iter xO p k), (Z.neg k). split.
    + replace (Z.max (Z.pos (digits2_pos p) + 0 - 53) (3 - 1024 - 53))
        with (Z.neg k) by lia.
      apply binary_round_aux_canonical; [rewrite digits2_iter|]; lia.
    + split; [rewrite digits2_iter; lia|]. split; [reflexivity|].
      split; [lia|]. apply iter_xO_value.
Qed.

Lemma div_lt_iff (a b c : Z) : 0 < b -> (a / b < c <-> a < c * b).
Proof.
  intros Hb. pose proof (Z.div_mod a b ltac:(lia)).
  pose proof (Z.mod_pos_bound a b Hb). split; intros H1; nia.
Qed.

Lemma ltb_has_sign (m : positive) (e : Z) (x : spec_float) :
  has_sign true x -> Double.ltb (S754_finite false m e) x = false.
Proof.
  destruct x as [s|s| |s m' e']; simpl; intros H; subst; reflexivity.
Qed.

Lemma ltb_canonical (g : spec_float) (T size : Z) :
  canonical_floor g T = true -> size < 2 ^ 53 ->
  Double.ltb g (Double.of_int size) = (T <? size).
Proof.
  unfold canonical_floor. destruct g as [s|s| |[|] mg eg]; try discriminate.
  intros Hc Hsize.
  apply andb_prop in Hc. destruct Hc as [Hc HT].
  apply andb_prop in Hc. destruct Hc as [Hc He2].
  apply andb_prop in Hc. destruct Hc as [Hd He1].
  apply Z.eqb_eq in Hd, HT. apply Z.leb_le in He1, He2.
  pose proof (digits2_bounds mg) as Hmg. rewrite Hd in Hmg.
  assert (Hpow : 0 < 2 ^ (- eg)) by (apply Z.pow_pos_nonneg; lia).
  assert (HTpos : 0 < T).
  { subst T. apply Z.div_str_pos. split; [exact Hpow|].
    assert (2 ^ (- eg) <= 2 ^ (53 - 1)) by (apply Z.pow_le_mono_r; lia).
    lia. }
  destruct size as [|p|p].
  - simpl. symmetry. apply Z.ltb_ge. lia.
  - destruct (of_int_pos p Hsize) as (m & e & -> & Hdm & He & He0 & Hm).
    pose proof (digits2_bounds p) as Hp. pose proof (digits2_bounds m) as Hbm.
    rewrite Hdm in Hbm.
    assert (Hpe : 0 < 2 ^ (- e)) by (apply Z.pow_pos_nonneg; lia).
    unfold Double.ltb, SFltb, SFcompare.
    rewrite Pos.compare_cont_spec. simpl Pos.switch_Eq.
    destruct (Z.compare_spec eg e) as [Heq|Hlt|Hgt].
    + subst eg. rewrite Pos2Z.inj_compare.
      destruct (Z.compare_spec (Z.pos mg) (Z.pos m)) as [E|L|G];
        symmetry.
      * apply Z.ltb_ge. subst T. rewrite E, Hm, Z.div_mul by lia. lia.
      * apply Z.ltb_lt. subst T. apply div_lt_iff; lia.
      * apply Z.ltb_ge. subst T.
        destruct (Z.le_gt_cases (Z.pos p) (Z.pos mg / 2 ^ (- e)))
          as [H|H]; [exact H|].
        apply div_lt_iff in H; lia.
    + symmetry. apply Z.ltb_lt. subst T. apply div_lt_iff; [exact Hpow|].
      assert (2 ^ 53 = 2 ^ (53 + eg) * 2 ^ (- eg))
        by (rewrite <- Z.pow_add_r by lia; f_equal; lia).
      assert (2 ^ (53 + eg) <= 2 ^ (Z.pos (digits2_pos p) - 1))
        by (apply Z.pow_le_mono_r; lia).
      nia.
    + symmetry. apply Z.ltb_ge. subst T.
      apply Z.div_le_lower_bound; [exact Hpow|].
      assert (2 ^ 52 = 2 ^ (- eg) * 2 ^ (52 + eg))
        by (rewrite <- Z.pow_add_r by lia; f_equal; lia).
      assert (2 ^ Z.pos (digits2_pos p) <= 2 ^ (52 + eg))
        by (apply Z.pow_le_mono_r; lia).
      change (2 ^ (53 - 1)) with (2 ^ 52) in Hmg.
      nia.
  - rewrite (ltb_has_sign mg eg _ (of_int_negative p)).
    symmetry. apply Z.ltb_ge. lia.
Qed.

Lemma growth_floors_canonical :
  forallb (fun n => canonical_floor (growth_after n Double.lit_2_65)
                      (nth n growth_floors 0))
          (seq 0 23) = true.
Proof. vm_compute. reflexivity. Qed.

Lemma ltb_growth (n : nat) (size : Z) :
  (n < 23)%nat -> size < 2 ^ 53 ->
  Double.ltb (growth_after n Double.lit_2_65) (Double.of_int size)
  = (nth n growth_floors 0 <? size).
Proof.
  intros Hn Hsize. apply ltb_canonical; [|exact Hsize].
  pose proof growth_floors_canonical as H.
  rewrite forallb_forall in H. apply H. apply in_seq. lia.
Qed.

Lemma loop_counts (n : nat) :
  forall (fuel : nat) (k : Z) (g size : spec_float),
    (n < fuel)%nat ->
    (forall i, (i < n)%nat -> Double.ltb (growth_after i g) size = true) ->
    Double.ltb (growth_after n g) size = false ->
    necessary_length_loop fuel k g size = Some (k + Z.of_nat n).
Proof.
  induction n as [|n IH]; intros fuel k g size Hfuel Hbelow Hexit;
    destruct fuel as [|fuel]; try lia.
  - simpl in *. rewrite Hexit. f_equal. lia.
  - cbn [necessary_length_loop].
    pose proof (Hbelow 0%nat ltac:(lia)) as H0. cbn [growth_after] in H0.
    rewrite H0.
    rewrite (IH fuel (k + 1) _ size ltac:(lia)).
    + f_equal. lia.
    + intros i Hi. apply (Hbelow (S i)). lia.
    + exact Hexit.
Qed.

Lemma passes_spec (floors : list Z) (size : Z) :
  (forall i, (i < passes floors size)%nat -> (nth i floors 0 <? size) = true) /\
  ((passes floors size < length floors)%nat ->
   (nth (passes floors size) floors 0 <? size) = false) /\
  (passes floors size <= length floors)%nat.
Proof.
  induction floors as [|T floors (IH1 & IH2 & IH3)]; simpl.
  - repeat split; intros; lia.
  - destruct (T <? size) eqn:E.
    + split; [intros [|i] Hi; [exact E|apply IH1; lia]|].
      split; [intros H; apply IH2; lia|lia].
    + split; [intros i Hi; lia|]. split; [intros _; exact E|lia].
Qed.

Lemma passes_mono (floors : list Z) (size size' : Z) :
  size <= size' -> (passes floors size <= passes floors size')%nat.
Proof.
  intros H. induction floors as [|T floors IH]; simpl; [lia|].
  destruct (Z.ltb_spec T size), (Z.ltb_spec T size'); lia.
Qed.

Lemma necessary_length_passes (size : Z) :
  size <= INT_MAX ->
  necessary_length size = Some (2 + Z.of_nat (passes growth_floors size)) /\
  (passes growth_floors size <= 22)%nat.
Proof.
  intros Hsize.
  assert (H22 : (passes growth_floors size <= 22)%nat).
  { pose proof (passes_mono growth_floors size INT_MAX Hsize) as H.
    replace (passes growth_floors INT_MAX) with 22%nat in H
      by (vm_compute; reflexivity).
    exact H. }
  split; [|exact H22].
  destruct (passes_spec growth_floors size) as (Hbelow & Hexit & _).
  assert (H53 : size < 2 ^ 53) by (unfold INT_MAX in Hsize; lia).
  apply loop_counts.
  - apply Nat.lt_le_trans with (m := 23%nat); [lia|].
    apply Nat.leb_le. vm_compute. reflexivity.
  - intros i Hi. rewrite ltb_growth by (try lia; exact H53).
    apply Hbelow. exact Hi.
  - rewrite ltb_growth by (try lia; exact H53).
    apply Hexit. change (length growth_floors) with 23%nat. lia.
Qed.

(** X9. On every [int] argument [necessary_length] returns 2 plus the
    number of leading entries of the table 2, 7, 18, 49, 130, ... (the
    integer parts of the powers of 2.65 as the doubles compute them) that
    are below [size].  So it never decreases when [size] grows, and it lies
    between 2 and 24. *)
Theorem necessary_length_thresholds (size size' : Z) :
  size <= size' -> size' <= INT_MAX ->
  exists k k',
    necessary_length size = Some k /\ necessary_length size' = Some k' /\
    k = 2 + Z.of_nat (passes growth_floors size) /\
    2 <= k /\ k <= k' /\ k' <= 24.
Proof.
  intros Hle Hmax.
  destruct (necessary_length_passes size ltac:(lia)) as (Hk & _).
  destruct (necessary_length_passes size' Hmax) as (Hk' & H22).
  pose proof (passes_mono growth_floors size size' Hle) as Hmono.
  eexists. eexists. split; [exact Hk|]. split; [exact Hk'|].
  split; [reflexivity|]. lia.
Qed.

Lemma necessary_length_thresholds_witness :
  exists k k',
    necessary_length 100 = Some k /\ necessary_length 1000 = Some k' /\
    k = 2 + Z.of_nat (passes growth_floors 100) /\
    2 <= k /\ k <= k' /\ k' <= 24.
Proof.
  apply (necessary_length_thresholds 100 1000); [lia|unfold INT_MAX; lia].
Defined.

Lemma to_int_small (z : Z) : - 2147483648 <= z <= INT_MAX -> to_int z = z.
Proof.
  unfold to_int, INT_MAX. intros H. rewrite Z.mod_small by lia. lia.
Qed.

(** X10. The prompts take their minimal key length from the file size
    converted to [int].  Up to 2^31 - 1 bytes this is
    [necessary_length(size)], 24 at 2^31 - 1; from 2^31 bytes up to
    2^32 + 2 the converted size is at most 2 and the prompts ask for 2
    characters only; sizes that differ by 2^32 get the same length. *)
Theorem minlen_wraps (size : Z) :
  (0 <= size <= INT_MAX -> minlen size = necessary_length size) /\
  minlen INT_MAX = Some 24 /\
  (INT_MAX < size <= 4294967298 -> minlen size = Some 2) /\
  minlen (size + 4294967296) = minlen size.
Proof.
  split; [|split; [|split]].
  - intros H. unfold minlen. rewrite to_int_small by lia. reflexivity.
  - vm_compute. reflexivity.
  - intros H. unfold minlen.
    assert (Hw : to_int size = size - 4294967296).
    { unfold to_int, INT_MAX in *.
      replace (size + 2147483648)
        with (size - 2147483648 + 1 * 4294967296) by ring.
      rewrite Z_mod_plus_full, Z.mod_small by lia. lia. }
    rewrite Hw.
    exact (loop_first_exit 1023 2 _ _
             (no_pass_below_3 (size - 4294967296) ltac:(lia))).
  - unfold minlen, to_int.
    replace (size + 4294967296 + 2147483648)
      with (size + 2147483648 + 1 * 4294967296) by ring.
    rewrite Z_mod_plus_full. reflexivity.
Qed.

(** ** Keys with multi-byte characters, in general *)

Lemma as_bytes_longer (x : list Z) :
  forall b, as_bytes x = Some b -> is_ascii x = false ->
            Py.len x < Py.len b.
Proof.
  induction x as [|c x IH]; intros b E Hna; [discriminate|].
  simpl in E.
  destruct (utf8_encode c) as [bc|] eqn:Ec; [|discriminate].
  destruct (as_bytes x) as [bs|] eqn:Ex; [|discriminate].
  simpl in E. apply Some_eq in E. subst b.
  destruct (utf8_encode_length c bc Ec) as (Hbc & Hone).
  destruct (as_bytes_bytes x bs Ex) as (_ & Hle).
  rewrite len_app. unfold Py.len in *. cbn [length].
  destruct (is_ascii x) eqn:Hx.
  - assert (Hc : ~ 0 <= c < 128).
    { intros Hc. pose proof (proj2 (is_ascii_cons c x) (conj Hc Hx)).
      congruence. }
    assert (Z.of_nat (length bc) <> 1) by (intros H1; apply Hc, Hone, H1).
    lia.
  - specialize (IH bs eq_refl eq_refl). lia.
Qed.

Lemma for_each_fails {S : Type} (ks : list Z) (f : S -> Z -> option S)
  (i : Z) :
  In i ks -> (forall s, f s i = None) ->
  forall s, Py.for_each ks f s = None.
Proof.
  induction ks as [|k ks IH]; intros Hin Hf s; [contradiction|].
  simpl. destruct Hin as [->|Hin].
  - rewrite Hf. reflexivity.
  - destruct (f s k); [apply IH; assumption|reflexivity].
Qed.

Lemma getitem_beyond {A : Type} (l : list A) (i : Z) :
  Py.len l <= i -> Py.getitem l i = None.
Proof.
  intros H. pose proof (len_nonneg l).
  rewrite getitem_nonneg by lia.
  apply nth_error_None. unfold Py.len in H. lia.
Qed.

(** The mixer fails at a position where a row it reads is too short for
    the index it computes. *)
Lemma mixing_byte_short_row (m : matrix) (L stop t i : Z) (row : list Z) :
  0 <= i < stop -> Py.getitem m i = Some row ->
  Py.len row <= Z.rem t (L - i) ->
  mixing_byte m L stop t = None.
Proof.
  intros Hi Hrow Hshort. unfold mixing_byte.
  rewrite (for_each_fails (Py.range stop) (mix_row m L t) i);
    [reflexivity|apply in_range2; lia|].
  intros byte. unfold mix_row, C.rem, getitem2.
  destruct (L - i =? 0); [reflexivity|]. simpl.
  rewrite Hrow. simpl. rewrite getitem_beyond by exact Hshort. reflexivity.
Qed.

Section ByteLoopFailure.

Variable chunk : Z.
Variable ck : C.char_kind.
Variables keystream1 keystream2 : matrix.
Variables L1 L2 stop1 stop2 : Z.

Let step := encrypt_step chunk ck keystream1 keystream2 L1 L2 stop1 stop2.
Let loop := encrypt_loop chunk ck keystream1 keystream2 L1 L2 stop1 stop2.

Lemma encrypt_step_count (st st' : loop_state) :
  step st = Some st' -> count st' = count st + 1.
Proof.
  unfold step, encrypt_step.
  destruct (mixing_byte keystream1 _ _ _) as [byte1|]; [|discriminate].
  destruct (mixing_byte keystream2 _ _ _) as [byte2|]; [|discriminate].
  cbn [Py.bind].
  destruct (C.rem (count st) chunk) as [index|]; [|discriminate].
  cbn [Py.bind].
  destruct (C.index (data st) index) as [d|]; [|discriminate].
  cbn [Py.bind].
  destruct (RK.encrypt_int ck d byte1 byte2) as [RK|]; [|discriminate].
  cbn [Py.bind].
  destruct (C.store (data st) index (C.char_store RK)) as [data'|];
    [|discriminate].
  cbn [Py.bind].
  destruct (C.index data' index) as [written|]; [|discriminate].
  cbn [Py.bind].
  destruct (C.rem (count st + 1) chunk) as [full|]; [|discriminate].
  cbn [Py.bind].
  destruct (full =? 0).
  - destruct (read chunk _) as [next f']. intros E.
    apply Some_eq in E. subst st'. reflexivity.
  - intros E. apply Some_eq in E. subst st'. reflexivity.
Qed.

Lemma encrypt_step_no_mixing_byte (st : loop_state) :
  mixing_byte keystream1 L1 stop1 (count st) = None \/
  mixing_byte keystream2 L2 stop2 (count st) = None ->
  step st = None.
Proof.
  unfold step, encrypt_step. intros [H|H].
  - rewrite H. reflexivity.
  - destruct (mixing_byte keystream1 _ _ _); [|reflexivity].
    cbn [Py.bind]. rewrite H. reflexivity.
Qed.

(** The loop cannot pass a position at which a mixing byte fails. *)
Lemma encrypt_loop_fails (size t : Z) :
  t < size ->
  mixing_byte keystream1 L1 stop1 t = None \/
  mixing_byte keystream2 L2 stop2 t = None ->
  forall fuel st, count st <= t -> loop fuel size st = None.
Proof.
  intros Ht Hfail. induction fuel as [|fuel IH]; intros st Hst;
    [reflexivity|].
  unfold loop in *. cbn [encrypt_loop].
  destruct (Z.ltb_spec (count st) size); [|lia].
  destruct (Z.eq_dec (count st) t) as [E|E].
  - fold (step st). rewrite encrypt_step_no_mixing_byte;
      [reflexivity|rewrite E; exact Hfail].
  - fold (step st). destruct (step st) as [st'|] eqn:Es; [|reflexivity].
    cbn [Py.bind]. apply IH.
    rewrite (encrypt_step_count st st' Es). lia.
Qed.

End ByteLoopFailure.

(** A key with a character above U+007F and at least three characters
    has at least four bytes, so that the loop reads row 1 (stop >= 2); the
    mixer stops at position [len(key) - 1]: row 1 has [len(key) - 1]
    entries and is asked for index [len(key) - 1]. *)
Lemma multibyte_mixer_fails (key k : list Z) (m : matrix) :
  as_bytes key = Some k -> is_ascii key = false -> 3 <= Py.len key ->
  keystream_shape k (Py.len key) m ->
  mixing_byte m (Py.len k) (stop_of (Py.len k)) (Py.len key - 1) = None.
Proof.
  intros Ek Hna Hlen (_ & _ & Hrows & _).
  pose proof (as_bytes_longer key k Ek Hna) as Hlonger.
  destruct (Hrows 1) as (row & Hrow & Hl).
  { unfold Py.ceil_half. Z.div_mod_to_equations. lia. }
  apply (mixing_byte_short_row m _ _ _ 1 row).
  - unfold stop_of. Z.quot_rem_to_equations. lia.
  - exact Hrow.
  - rewrite Z.rem_small by lia. lia.
Qed.

(** X11. A key of three or more characters that holds a character above
    U+007F never carries a run through: for every file with at least
    [len(key)] bytes, every chunk size and either key, [nemesis_encrypt]
    with such a key does not return (an index outside a row of the matrix
    at position [len(key) - 1] at the latest, or a failure of the builder).
    [generate_keystreams] sizes the rows by the characters of the key,
    while the byte loop takes L from the bytes of row 0. *)
Theorem multibyte_key_fails (chunk : Z) (ck : C.char_kind)
  (key1 key2 bytes : list Z) :
  (is_ascii key1 = false /\ 3 <= Py.len key1 <= Py.len bytes) \/
  (is_ascii key2 = false /\ 3 <= Py.len key2 <= Py.len bytes) ->
  nemesis_encrypt_chunked chunk ck key1 key2 bytes = None.
Proof.
  intros Hkey. unfold nemesis_encrypt_chunked.
  assert (Hfinal : final_state chunk ck key1 key2 bytes = None);
    [|rewrite Hfinal; reflexivity].
  unfold final_state.
  destruct (generate_keystreams key1 key2) as [[m1 m2]|] eqn:Hgen;
    [|reflexivity].
  destruct (generate_keystreams_returned_shape key1 key2 m1 m2 Hgen)
    as (k1 & k2 & E1 & E2 & S1 & S2).
  cbn [Py.bind].
  assert (H10 : Py.getitem m1 0 = Some k1) by apply S1.
  assert (H20 : Py.getitem m2 0 = Some k2) by apply S2.
  rewrite H10, H20. cbn [Py.bind].
  destruct (read chunk _) as [first f].
  destruct Hkey as [(Hna & Hlen)|(Hna & Hlen)].
  - apply (encrypt_loop_fails chunk ck m1 m2 _ _ _ _ (Py.len bytes)
             (Py.len key1 - 1)); [lia| |simpl; lia].
    left. apply (multibyte_mixer_fails key1 k1 m1); try assumption. lia.
  - apply (encrypt_loop_fails chunk ck m1 m2 _ _ _ _ (Py.len bytes)
             (Py.len key2 - 1)); [lia| |simpl; lia].
    right. apply (multibyte_mixer_fails key2 k2 m2); try assumption. lia.
Qed.

Lemma multibyte_key_fails_witness :
  nemesis_encrypt_chunked CHUNK C.SignedChar [112; 228; 115; 115]
    [97; 98; 99; 100] [65; 66; 67; 68; 69] = None.
Proof.
  apply (multibyte_key_fails CHUNK C.SignedChar [112; 228; 115; 115]
           [97; 98; 99; 100] [65; 66; 67; 68; 69]).
  left. split; [reflexivity|]. unfold Py.len. simpl. lia.
Defined.

(** ** [main] *)

Lemma str_eqb_eq (a b : str) : str_eqb a b = true <-> a = b.
Proof.
  revert b. induction a as [|c a IH]; intros [|d b]; simpl;
    try (split; [discriminate|discriminate]); [tauto|].
  rewrite andb_true_iff, Z.eqb_eq, IH. split.
  - intros [-> ->]. reflexivity.
  - intros E. injection E as -> ->. split; reflexivity.
Qed.

Lemma str_eqb_neq (a b : str) : a <> b -> str_eqb a b = false.
Proof.
  intros H. destruct (str_eqb a b) eqn:E; [|reflexivity].
  apply str_eqb_eq in E. contradiction.
Qed.

Lemma split_from_no_hyphen (m : str) :
  no_hyphen m -> forall cur, split_from m cur = [cur ++ m].
Proof.
  induction m as [|c m IH]; intros Hm cur; simpl.
  - rewrite app_nil_r. reflexivity.
  - apply Forall_cons_iff in Hm. destruct Hm as [Hc Hm].
    destruct m as [|d m']; [reflexivity|].
    assert (Hd : d <> 45) by (apply Forall_cons_iff in Hm; tauto).
    replace ((c =? 32) && (d =? 45)) with false
      by (symmetry; apply andb_false_iff; right; apply Z.eqb_neq; exact Hd).
    rewrite (IH Hm). rewrite <- app_assoc. reflexivity.
Qed.

Lemma split_from_piece (f rest : str) :
  no_hyphen f ->
  forall cur, split_from (f ++ 32 :: 45 :: rest) cur
              = (cur ++ f) :: split_from rest [].
Proof.
  induction f as [|c f IH]; intros Hf cur.
  - simpl. rewrite app_nil_r. reflexivity.
  - apply Forall_cons_iff in Hf. destruct Hf as [Hc Hf].
    change ((c :: f) ++ 32 :: 45 :: rest)
      with (c :: (f ++ 32 :: 45 :: rest)).
    cbn [split_from].
    destruct f as [|d f'].
    + cbn [app]. cbn [Z.eqb Pos.eqb andb].
      rewrite andb_false_r. rewrite (IH Hf). rewrite <- app_assoc.
      reflexivity.
    + assert (Hd : d <> 45) by (apply Forall_cons_iff in Hf; tauto).
      cbn [app].
      replace ((c =? 32) && (d =? 45)) with false
        by (symmetry; apply andb_false_iff; right; apply Z.eqb_neq;
            exact Hd).
      change (d :: f' ++ 32 :: 45 :: rest)
        with ((d :: f') ++ 32 :: 45 :: rest).
      rewrite (IH Hf). rewrite <- app_assoc. reflexivity.
Qed.

(** [(f + ' -' + m).split(' -')] is [[f, m]] when neither holds a
    hyphen. *)
Lemma split_command (f m : str) :
  no_hyphen f -> no_hyphen m -> split (f ++ 32 :: 45 :: m) = [f; m].
Proof.
  intros Hf Hm. unfold split.
  rewrite split_from_piece by exact Hf.
  rewrite split_from_no_hyphen by exact Hm. reflexivity.
Qed.

Lemma parse_quit (x : str) (l : locals) :
  quit_command x = true -> parse x l = (l, Some (SystemExit 0)).
Proof. unfold quit_command, parse. intros ->. reflexivity. Qed.

Lemma parse_command (f m : str) (l : locals) :
  no_hyphen f -> no_hyphen m -> f <> quit -> m <> quit ->
  parse (f ++ 32 :: 45 :: m) l
  = ({| filename := Some f; mode := Some m |}, None).
Proof.
  intros Hf Hm Hfq Hmq. unfold parse.
  rewrite split_command by assumption.
  assert (Hd : forall s, no_hyphen s -> str_eqb dash_quit s = false).
  { intros s Hs. apply str_eqb_neq. intros <-.
    apply Forall_cons_iff in Hs. destruct Hs as [Hs _]. apply Hs.
    reflexivity. }
  unfold in_list. cbn [existsb].
  rewrite (Hd f Hf), (Hd m Hm).
  rewrite (str_eqb_neq quit f), (str_eqb_neq quit m) by congruence.
  reflexivity.
Qed.

Lemma main_loop_cons (fs : str -> open_result) (x : str)
  (inputs : list str) (l : locals) :
  main_loop fs (x :: inputs) l
  = match raised (main_pass fs x l) with
    | Some e => (called (main_pass fs x l), Some e)
    | None =>
        let '(cs, e) := main_loop fs inputs (after (main_pass fs x l)) in
        (called (main_pass fs x l) ++ cs, e)
    end.
Proof. reflexivity. Qed.

(** X13. Leaving the program repeats the last command.  After a command
    [f -encrypt] on a file that opens, any quit command ([-quit], [quit],
    [f -quit], ...) calls [nemesis_encrypt(f)] once more before SystemExit
    leaves [main]: the [finally] block runs with [filename] and [mode]
    left from the pass before. *)
Theorem quit_repeats_command (fs : str -> open_result) (f x : str) :
  no_hyphen f -> f <> quit -> fs f = Opened -> quit_command x = true ->
  main fs [f ++ 32 :: 45 :: encrypt; x]
  = ([Encrypt f; Encrypt f], Some (SystemExit 0)).
Proof.
  intros Hf Hfq Hfs Hx.
  assert (He : no_hyphen encrypt).
  { unfold encrypt. repeat apply Forall_cons; try apply Forall_nil;
      discriminate. }
  assert (P1 : main_pass fs (f ++ 32 :: 45 :: encrypt)
                 {| filename := None; mode := None |}
               = {| after := {| filename := Some f; mode := Some encrypt |};
                    called := [Encrypt f]; raised := None |}).
  { unfold main_pass.
    rewrite (parse_command f encrypt _ Hf He Hfq ltac:(discriminate)).
    unfold check_file. cbn [filename]. rewrite Hfs. reflexivity. }
  assert (P2 : main_pass fs x {| filename := Some f; mode := Some encrypt |}
               = {| after := {| filename := Some f; mode := Some encrypt |};
                    called := [Encrypt f];
                    raised := Some (SystemExit 0) |}).
  { unfold main_pass. rewrite (parse_quit x _ Hx).
    unfold check_file. cbn [filename]. rewrite Hfs. reflexivity. }
  unfold main. rewrite main_loop_cons, P1. cbn [raised after called].
  rewrite main_loop_cons, P2. reflexivity.
Qed.

Lemma quit_repeats_command_witness :
  main (fun _ => Opened) [[102] ++ 32 :: 45 :: encrypt; dash_quit]
  = ([Encrypt [102]; Encrypt [102]], Some (SystemExit 0)).
Proof.
  apply (quit_repeats_command (fun _ => Opened) [102] dash_quit).
  - repeat apply Forall_cons; try apply Forall_nil. discriminate.
  - discriminate.
  - reflexivity.
  - reflexivity.
Defined.

(** X14. A quit command at the first prompt does not leave through
    [sys.exit(0)]: [filename] is still unbound when the [finally] block
    calls [usage_modes.get(mode, ...)(filename)], so UnboundLocalError
    replaces the SystemExit in flight.  No call is made, whatever the file
    system and whatever follows in the input. *)
Theorem quit_at_first_prompt (fs : str -> open_result) (x : str)
  (inputs : list str) :
  quit_command x = true ->
  main fs (x :: inputs) = ([], Some UnboundLocalError).
Proof.
  intros Hx. unfold main. rewrite main_loop_cons. unfold main_pass.
  rewrite (parse_quit x _ Hx). reflexivity.
Qed.

Lemma quit_at_first_prompt_witness :
  main (fun _ => Opened) (dash_quit :: [[102] ++ 32 :: 45 :: encrypt])
  = ([], Some UnboundLocalError).
Proof.
  apply (quit_at_first_prompt (fun _ => Opened) dash_quit). reflexivity.
Defined.

Lemma usage_modes_empty : usage_modes [] = None.
Proof. reflexivity. Qed.

Lemma usage_modes_call (m f : str) (function : str -> call) :
  usage_modes m = Some function ->
  function f = Encrypt f \/ function f = Decrypt f.
Proof.
  unfold usage_modes. destruct (str_eqb m encrypt).
  - intros E. apply Some_eq in E. subst. left. reflexivity.
  - destruct (str_eqb m decrypt); [|discriminate].
    intros E. apply Some_eq in E. subst. right. reflexivity.
Qed.

(** What one pass may call: a mode function, on a file that [open] did
    not report missing or unreadable. *)
Lemma main_pass_calls (fs : str -> open_result) (x : str) (l : locals) :
  Forall (fun c => exists f,
            (c = Encrypt f \/ c = Decrypt f) /\
            fs f <> FileNotFound /\ fs f <> PermissionDenied)
         (called (main_pass fs x l)).
Proof.
  unfold main_pass. destruct (parse x l) as [l1 e1].
  unfold check_file. destruct (filename l1) as [f|] eqn:Ef.
  - destruct (fs f) eqn:Efs.
    + unfold dispatch. rewrite Ef.
      destruct (mode l1) as [m|]; [|constructor].
      destruct (usage_modes m) as [function|] eqn:Eu; [|constructor].
      cbn [called]. constructor; [|constructor].
      exists f. split; [apply (usage_modes_call m f function Eu)|].
      rewrite Efs. split; discriminate.
    + unfold dispatch. cbn [mode filename]. rewrite usage_modes_empty.
      constructor.
    + unfold dispatch. cbn [mode filename]. rewrite usage_modes_empty.
      constructor.
    + unfold dispatch. rewrite Ef.
      destruct (mode l1) as [m|]; [|constructor].
      destruct (usage_modes m) as [function|] eqn:Eu; [|constructor].
      cbn [called]. constructor; [|constructor].
      exists f. split; [apply (usage_modes_call m f function Eu)|].
      rewrite Efs. split; discriminate.
  - unfold dispatch. cbn [mode filename]. constructor.
Qed.

(** X15. Whatever is typed and whatever the file system, [main] only ever
    calls [nemesis_encrypt] or [nemesis_decrypt], and only on a file name
    that [open] has just been tried on without FileNotFoundError or
    PermissionError. *)
Theorem main_calls_checked_files (fs : str -> open_result)
  (inputs : list str) :
  Forall (fun c => exists f,
            (c = Encrypt f \/ c = Decrypt f) /\
            fs f <> FileNotFound /\ fs f <> PermissionDenied)
         (fst (main fs inputs)).
Proof.
  unfold main. generalize {| filename := None; mode := None |}.
  induction inputs as [|x inputs IH]; intros l.
  - constructor.
  - rewrite main_loop_cons. pose proof (main_pass_calls fs x l) as Hpass.
    destruct (raised (main_pass fs x l)); [exact Hpass|].
    specialize (IH (after (main_pass fs x l))).
    destruct (main_loop fs inputs (after (main_pass fs x l))) as [cs e].
    cbn [fst] in *. apply Forall_app. split; assumption.
Qed.

(** X16. A line that is no quit command and does not split into exactly
    two pieces is refused: the pass calls nothing, raises nothing and
    leaves [filename] and [mode] empty, provided [open('')] reports the
    file missing.  A quit command right after it leaves through
    [sys.exit(0)] without any call. *)
Theorem refused_line_then_quit (fs : str -> open_result) (x q : str)
  (l : locals) :
  quit_command x = false -> length (split x) <> 2%nat ->
  fs [] = FileNotFound -> quit_command q = true ->
  main_pass fs x l
  = {| after := {| filename := Some []; mode := Some [] |};
       called := []; raised := None |} /\
  main_loop fs [x; q] l = ([], Some (SystemExit 0)).
Proof.
  intros Hx Hlen Hfs Hq.
  assert (Hpass : main_pass fs x l
          = {| after := {| filename := Some []; mode := Some [] |};
               called := []; raised := None |}).
  { unfold main_pass, parse. unfold quit_command in Hx. rewrite Hx.
    assert (Hp : match split x with
                 | [f; m] => ({| filename := Some f; mode := Some m |},
                              @None exn)
                 | _ => ({| filename := Some []; mode := Some [] |}, None)
                 end = ({| filename := Some []; mode := Some [] |}, None)).
    { destruct (split x) as [|a [|b [|c s]]]; try reflexivity.
      exfalso. apply Hlen. reflexivity. }
    rewrite Hp. unfold check_file. cbn [filename]. rewrite Hfs.
    reflexivity. }
  split; [exact Hpass|].
  rewrite main_loop_cons, Hpass. cbn [raised after called].
  rewrite main_loop_cons. unfold main_pass. rewrite (parse_quit q _ Hq).
  unfold check_file. cbn [filename]. rewrite Hfs. reflexivity.
Qed.

Lemma refused_line_then_quit_witness :
  main_pass (fun _ => FileNotFound) encrypt
    {| filename := Some [102]; mode := Some encrypt |}
  = {| after := {| filename := Some []; mode := Some [] |};
       called := []; raised := None |} /\
  main_loop (fun _ => FileNotFound) [encrypt; quit]
    {| filename := Some [102]; mode := Some encrypt |}
  = ([], Some (SystemExit 0)).
Proof.
  apply (refused_line_then_quit (fun _ => FileNotFound) encrypt quit);
    [reflexivity|simpl; lia|reflexivity|reflexivity].
Defined.

(** ** The accumulator of the matrix builder, revisited *)



(** ** [main]: errors of [open] and reserved file names *)

(** X17. An error of [open] other than FileNotFoundError and
    PermissionError does not stop the command: on [f -encrypt] (or
    [f -decrypt]) the pass still calls the mode function on [f] in the
    inner [finally], and the error leaves [main] after the call. *)
Theorem open_error_still_calls (fs : str -> open_result) (f : str)
  (l : locals) (inputs : list str) :
  no_hyphen f -> f <> quit -> fs f = OtherError ->
  main_loop fs ((f ++ 32 :: 45 :: encrypt) :: inputs) l
  = ([Encrypt f], Some OpenError) /\
  main_loop fs ((f ++ 32 :: 45 :: decrypt) :: inputs) l
  = ([Decrypt f], Some OpenError).
Proof.
  intros Hf Hfq Hfs.
  assert (He : no_hyphen encrypt /\ no_hyphen decrypt).
  { unfold encrypt, decrypt.
    split; repeat apply Forall_cons; try apply Forall_nil; discriminate. }
  destruct He as [He Hd].
  split; rewrite main_loop_cons; unfold main_pass.
  - rewrite (parse_command f encrypt l Hf He Hfq ltac:(discriminate)).
    unfold check_file. cbn [filename]. rewrite Hfs. reflexivity.
  - rewrite (parse_command f decrypt l Hf Hd Hfq ltac:(discriminate)).
    unfold check_file. cbn [filename]. rewrite Hfs. reflexivity.
Qed.

Lemma open_error_still_calls_witness :
  main_loop (fun _ => OtherError) (([102] ++ 32 :: 45 :: encrypt) :: [])
    {| filename := None; mode := None |}
  = ([Encrypt [102]], Some OpenError) /\
  main_loop (fun _ => OtherError) (([102] ++ 32 :: 45 :: decrypt) :: [])
    {| filename := None; mode := None |}
  = ([Decrypt [102]], Some OpenError).
Proof.
  apply (open_error_still_calls (fun _ => OtherError) [102]).
  - repeat apply Forall_cons; try apply Forall_nil. discriminate.
  - discriminate.
  - reflexivity.
Defined.

Lemma in_list_false (s a b : str) :
  in_list s [a; b] = false -> a <> s.
Proof.
  unfold in_list. cbn [existsb]. intros H E. subst a.
  assert (Hs : str_eqb s s = true) by (apply str_eqb_eq; reflexivity).
  rewrite Hs in H. discriminate.
Qed.

Lemma parse_not_quit (x : str) (l : locals) :
  not_quit l -> not_quit (fst (parse x l)).
Proof.
  intros Hl. unfold parse.
  destruct (in_list dash_quit (split x)) eqn:Ed; [exact Hl|].
  destruct (in_list quit (split x)) eqn:Eq; [exact Hl|].
  cbn [orb].
  destruct (split x) as [|a [|b [|c s]]];
    try (cbn [fst]; unfold not_quit; cbn [filename]; split; discriminate).
  cbn [fst]. unfold not_quit. cbn [filename]. split.
  - apply (in_list_false quit a b Eq).
  - apply (in_list_false dash_quit a b Ed).
Qed.

Lemma check_file_not_quit (fs : str -> open_result) (l : locals) :
  not_quit l -> not_quit (fst (check_file fs l)).
Proof.
  unfold check_file, not_quit. destruct (filename l) as [f|] eqn:Ef.
  - intros H. destruct (fs f); cbn [fst filename]; try rewrite Ef; exact H.
  - intros _. exact I.
Qed.

Lemma main_pass_not_quit (fs : str -> open_result) (x : str) (l : locals) :
  not_quit l ->
  not_quit (after (main_pass fs x l)) /\
  Forall (fun c => exists f,
            (c = Encrypt f \/ c = Decrypt f) /\ f <> quit /\ f <> dash_quit)
         (called (main_pass fs x l)).
Proof.
  intros Hl. unfold main_pass.
  pose proof (parse_not_quit x l Hl) as H1.
  destruct (parse x l) as [l1 e1]. cbn [fst] in H1.
  pose proof (check_file_not_quit fs l1 H1) as H2.
  destruct (check_file fs l1) as [l2 e2]. cbn [fst] in H2.
  unfold dispatch.
  destruct (mode l2) as [m|]; [|split; [exact H2|constructor]].
  destruct (filename l2) as [f|] eqn:Ef; [|split; [exact H2|constructor]].
  destruct (usage_modes m) as [function|] eqn:Eu;
    [|split; [exact H2|constructor]].
  cbn [after called]. split; [exact H2|].
  constructor; [|constructor].
  exists f. split; [apply (usage_modes_call m f function Eu)|].
  unfold not_quit in H2. rewrite Ef in H2. exact H2.
Qed.

(** X18. The words of the quit command are reserved: along any run of
    [main], no call of [nemesis_encrypt] or [nemesis_decrypt] is ever
    made on a file named [quit] or [-quit], since a line that holds either
    piece leaves the loop before [filename] is assigned. *)
Theorem main_never_calls_on_quit (fs : str -> open_result)
  (inputs : list str) :
  Forall (fun c => exists f,
            (c = Encrypt f \/ c = Decrypt f) /\ f <> quit /\ f <> dash_quit)
         (fst (main fs inputs)).
Proof.
  unfold main.
  assert (H0 : not_quit {| filename := None; mode := None |}) by exact I.
  revert H0. generalize {| filename := None; mode := None |}.
  induction inputs as [|x inputs IH]; intros l Hl.
  - constructor.
  - rewrite main_loop_cons.
    destruct (main_pass_not_quit fs x l Hl) as (Hafter & Hcalls).
    destruct (raised (main_pass fs x l)); [exact Hcalls|].
    specialize (IH (after (main_pass fs x l)) Hafter).
    destruct (main_loop fs inputs (after (main_pass fs x l))) as [cs e].
    cbn [fst] in *. apply Forall_app. split; assumption.
Qed.
